(** * Mixture model engine of cluster-forecasting (GMM.py)

    A shallow embedding of [GMM.py]: the mixture-family registry and
    factory, the two Gaussian mixture classes [GmmFull] and [GmmDiagonal]
    (constructor, likelihood loss, parameter repair, covariance read-out)
    and the probability warp.

    Number model.  The source computes with IEEE floats; here a float is a
    real number.  The constructors, the repair and the covariance read-out
    use only field operations, absolute value, maximum and order, and are
    stated over an arbitrary real (totally ordered) field [F]; the
    likelihood and the warp need logarithm, exponential and square root and
    are stated over the real numbers [R] of the Standard Library.

    Tensors are nested sequences, outermost dimension first, as
    [tensor.tolist()] shows them. *)

From Stdlib Require Import String Reals Lra Epsilon FunctionalExtensionality.

(** The Standard Library's decision procedures for [R], under names that
    stay available next to MathComp's tactics of the same name. *)
Ltac Rlra := lra.
Ltac Rfield := field.
Ltac Rring := ring.

From HB Require Import structures.
From mathcomp Require Import boot order algebra.
Import Order.TTheory GRing.Theory Num.Theory.

Set Implicit Arguments.
Unset Strict Implicit.
Unset Printing Implicit Defensive.

(** ** Exceptions *)

(** The exceptions that [GMM.py] raises itself carry their message; the
    ones raised inside torch or by Python's arithmetic are kept apart by
    their class only. *)
Inductive exn : Type :=
  | ValueError (msg : string)
  | NotImplementedError (msg : string)
  | TorchValueError
  | TypeError
  | RuntimeError
  | ZeroDivisionError.

Inductive result (A : Type) : Type :=
  | Ok (a : A)
  | Raise (e : exn).

Arguments Ok {A} a.
Arguments Raise {A} e.

Definition bind {A B : Type} (r : result A) (k : A -> result B) : result B :=
  match r with
  | Ok a => k a
  | Raise e => Raise e
  end.

Notation "'let!' x ':=' r 'in' k" := (bind r (fun x => k))
  (at level 200, x pattern, r at level 100, k at level 200, right associativity).

(** A Python number as a caller can pass it where the source annotates
    [int] or [float]: nothing checks the annotation at run time. *)
Inductive pynum (T : Type) : Type :=
  | PyInt (z : int)
  | PyFloat (x : T).

Arguments PyInt {T} z.
Arguments PyFloat {T} x.

(** ** Mixture family registry *)

Inductive MixtureFamily : Type :=
  | FULL
  | DIAGONAL
  | ISOTROPIC
  | SHARED_ISOTROPIC
  | CONSTANT.

(** [family.value] *)
Definition value (family : MixtureFamily) : string :=
  match family with
  | FULL => "full"
  | DIAGONAL => "diagonal"
  | ISOTROPIC => "isotropic"
  | SHARED_ISOTROPIC => "shared_isotropic"
  | CONSTANT => "constant"
  end.

(** Iterating over the enumeration class yields its members in the order
    of their definition. *)
Definition members : seq MixtureFamily :=
  [:: FULL; DIAGONAL; ISOTROPIC; SHARED_ISOTROPIC; CONSTANT].

Definition FAMILY_NAMES : seq string := [seq value family | family <- members].

(** [repr] of a string without quote or escape characters, and of a list
    of such strings, as an f-string prints them. *)
Definition repr_str (s : string) : string := ("'" ++ s ++ "'")%string.

Fixpoint join (sep : string) (l : seq string) : string :=
  match l with
  | [::] => EmptyString
  | [:: s] => s
  | s :: l' => (s ++ sep ++ join sep l')%string
  end.

Definition repr_list (l : seq string) : string :=
  ("[" ++ join ", " [seq repr_str s | s <- l] ++ "]")%string.

(** The loop [for family in MixtureFamily: if family.value == family_name:
    return family], over the members still to visit. *)
Fixpoint first_with_value (family_name : string) (todo : seq MixtureFamily)
  : option MixtureFamily :=
  match todo with
  | [::] => None
  | family :: todo' =>
      if String.eqb (value family) family_name then Some family
      else first_with_value family_name todo'
  end.

Definition get_mixture_family_from_str (family_name : string)
  : result MixtureFamily :=
  match first_with_value family_name members with
  | Some family => Ok family
  | None =>
      Raise (ValueError ("Unknown mixture family `" ++ family_name ++ "`. "
                         ++ "Please select from " ++ repr_list FAMILY_NAMES)%string)
  end.

(** The message of the [ValueError], written out. *)
Definition unknown_family_message (family_name : string) : string :=
  ("Unknown mixture family `" ++ family_name
   ++ "`. Please select from ['full', 'diagonal', 'isotropic', 'shared_isotropic', 'constant']")%string.

(** The five tag strings, written out. *)
Definition tags : seq string :=
  [:: "full"; "diagonal"; "isotropic"; "shared_isotropic"; "constant"]%string.

(** ** Tensor operations over a real field *)

Section Tensor.

Variable F : realFieldType.
Local Open Scope ring_scope.

Definition vector : Type := seq F.
Definition matrix2 : Type := seq (seq F).

(** Entry [(i, j)] of a 2-D tensor. *)
Definition entry (A : matrix2) (i j : nat) : F := nth 0 (nth [::] A i) j.

Definition dot (a b : vector) : F := \sum_(p <- zip a b) p.1 * p.2.

Definition ncols (A : matrix2) : nat := size (head [::] A).

Definition col (j : nat) (A : matrix2) : vector := [seq nth 0 r j | r <- A].

(** [A.t()] and [A.mT] on a 2-D tensor *)
Definition transpose (A : matrix2) : matrix2 := mkseq (fun j => col j A) (ncols A).

(** [A @ B] *)
Definition matmul (A B : matrix2) : matrix2 :=
  [seq [seq dot r c | c <- transpose B] | r <- A].

(** [A + B], entry by entry *)
Definition tensor_add (A B : matrix2) : matrix2 :=
  [seq [seq p.1 + p.2 | p <- zip rs.1 rs.2] | rs <- zip A B].

(** [torch.tril(A)]: the entries above the diagonal become zero. *)
Definition tril (A : matrix2) : matrix2 :=
  mkseq (fun i => mkseq (fun j => if (j <= i)%N then entry A i j else 0)
                        (size (nth [::] A i)))
        (size A).

(** [torch.ones(n)] and [torch.zeros(n)] *)
Definition ones (n : nat) : vector := nseq n 1.
Definition zeros (n : nat) : vector := nseq n 0.

(** [torch.diag(v)] of a 1-D tensor; [torch.diag_embed] does the same to
    every row of a 2-D tensor. *)
Definition diag (v : vector) : matrix2 :=
  mkseq (fun i => mkseq (fun j => if i == j then nth 0 v i else 0) (size v))
        (size v).

Definition diag_embed (V : matrix2) : seq matrix2 := [seq diag v | v <- V].

(** An in-place operation [f] applied through the view [A.diagonal()]:
    the entries [(i, i)] are replaced, every other entry is kept. *)
Definition on_diagonal (f : F -> F) (A : matrix2) : matrix2 :=
  mkseq (fun i => mkseq (fun j => if i == j then f (entry A i j) else entry A i j)
                        (size (nth [::] A i)))
        (size A).

(** [x.abs_()] and [x.clamp_min_(epsilon)] on one entry *)
Definition abs_ (x : F) : F := `|x|.
Definition clamp_min_ (epsilon : F) (x : F) : F := Num.max x epsilon.

(** A tensor of shape [rows x cols]. *)
Definition has_shape (rows cols : nat) (A : matrix2) : bool :=
  (size A == rows) && all (fun r => size r == cols) A.

(** ** The random generator

    [torch.rand] and [uniform_] read torch's global generator.  The
    generator is a stream [u] of draws from [0, 1) and a position in it;
    every draw moves the position on. *)

Variable u : nat -> F.

Definition rand (pos rows cols : nat) : matrix2 * nat :=
  (mkseq (fun i => mkseq (fun j => u (pos + i * cols + j)) cols) rows,
   (pos + rows * cols)%N).

(** [t.uniform_(lo, hi)] overwrites every entry of [t] with a fresh draw
    from [lo, hi); torch refuses [lo > hi]. *)
Definition uniform_ (pos : nat) (t : matrix2) (lo hi : F) : result (matrix2 * nat) :=
  if lo <= hi then
    let rows := size t in
    let cols := ncols t in
    Ok (mkseq (fun i => mkseq (fun j => lo + u (pos + i * cols + j) * (hi - lo))
                              (size (nth [::] t i)))
              rows,
        (pos + rows * cols)%N)
  else Raise RuntimeError.

End Tensor.

(** ** Real-number arithmetic of numpy and torch

    Where IEEE arithmetic leaves the real numbers (an infinity or a NaN:
    the logarithm of a non-positive number, a quotient by zero, the mean
    of nothing) the model has no value: [None].  No exception is raised
    there by numpy or torch; Python's own division of integers does
    raise. *)

Section RealArith.

Local Open Scope R_scope.

Definition Rleb (a b : R) : bool := if Rle_dec a b then true else false.
Definition Rltb (a b : R) : bool := if Rlt_dec a b then true else false.

Definition Rsum (v : seq R) : R := foldr Rplus 0 v.

Definition Rdot (a b : seq R) : R := Rsum [seq p.1 * p.2 | p <- zip a b].

Definition Rentry (A : seq (seq R)) (i j : nat) : R := nth 0 (nth [::] A i) j.

(** All of the entries, or nothing when one of them has no value. *)
Fixpoint sequence (A : Type) (l : seq (option A)) : option (seq A) :=
  match l with
  | [::] => Some [::]
  | x :: l' =>
      match x, sequence l' with
      | Some a, Some r => Some (a :: r)
      | _, _ => None
      end
  end.

(** [numpy.log(x)] *)
Definition numpy_log (x : R) : option R :=
  if Rlt_dec 0 x then Some (ln x) else None.

(** [a / b] on numpy floats *)
Definition float_div (a b : R) : option R :=
  if Req_EM_T b 0 then None else Some (a / b).

(** [a / b] on Python integers *)
Definition int_true_div (a b : nat) : result R :=
  if b is 0%N then Raise ZeroDivisionError else Ok (INR a / INR b).

(** [x ** a] on one entry of a tensor: a positive base has the power
    [exp (a * ln x)]; zero has a power for a non-negative exponent only;
    a negative base has one for an integer exponent only. *)
Definition float_pow (x a : R) : option R :=
  if Rlt_dec 0 x then Some (Rpower x a)
  else if Req_EM_T x 0 then
    if Rlt_dec 0 a then Some 0
    else if Req_EM_T a 0 then Some 1 else None
  else if Req_EM_T a (IZR (Int_part a)) then Some (powerRZ x (Int_part a))
  else None.

(** [torch.nn.functional.linear(x, W)] without bias: [x @ W.t()] for one
    input vector. *)
Definition linear (W : seq (seq R)) (x : seq R) : seq R := [seq Rdot x w | w <- W].

(** [v.logsumexp(-1)] and [torch.log_softmax(v, -1)] of a non-empty
    vector. *)
Definition logsumexp (v : seq R) : R := ln (Rsum [seq exp x | x <- v]).

Definition log_softmax (v : seq R) : seq R := [seq x - logsumexp v | x <- v].

(** [v.mean()] *)
Definition mean (v : seq R) : option R :=
  if v is [::] then None else Some (Rsum v / INR (size v)).

(** [torch.isclose(a, b, atol=atol)] with the default [rtol = 1e-5] *)
Definition isclose (atol a b : R) : bool :=
  Rleb (Rabs (a - b)) (atol + / 100000 * Rabs b).

(** The solution [z] of [L z = v] for a lower-triangular [L] by forward
    substitution ([torch.linalg.solve_triangular(L, v, upper=False)]);
    [acc] holds the entries found so far. *)
Fixpoint solve_lower (L : seq (seq R)) (v : seq R) (acc : seq R) : seq R :=
  match L, v with
  | Li :: L', vi :: v' =>
      solve_lower L' v' (rcons acc ((vi - Rdot acc Li) / nth 0 Li (size acc)))
  | _, _ => acc
  end.

(** [torch.linalg.cholesky(A)], row by row: the factor is lower
    triangular with a positive diagonal, only the lower triangle of [A] is
    read, and there is no factor when a pivot is not positive.  [done]
    holds the rows of the factor found so far, [n] is the size of [A]. *)
Definition cholesky_row (n : nat) (done : seq (seq R)) (a : seq R) : option (seq R) :=
  let i := size done in
  let off := solve_lower done a [::] in
  let pivot := nth 0 a i - Rdot off off in
  if Rlt_dec 0 pivot then Some (off ++ sqrt pivot :: nseq (n - i.+1) 0)
  else None.

Fixpoint cholesky_rows (n : nat) (done : seq (seq R)) (todo : seq (seq R))
  : option (seq (seq R)) :=
  match todo with
  | [::] => Some done
  | a :: todo' =>
      match cholesky_row n done a with
      | Some l => cholesky_rows n (rcons done l) todo'
      | None => None
      end
  end.

Definition cholesky (A : seq (seq R)) : option (seq (seq R)) :=
  cholesky_rows (size A) [::] A.

End RealArith.

(** ** torch.distributions

    The distributions validate their arguments when they are built (the
    default, [validate_args=True]) and raise [ValueError] from inside
    torch when a constraint is broken. *)

Module Categorical.

(** [Categorical(logits=l)] stores the normalised [l - l.logsumexp(-1)]. *)
Definition logits (l : seq R) : seq R := log_softmax l.

End Categorical.

Module Normal.

Section Defs.
Local Open Scope R_scope.

(** [Normal(loc, scale)] on one entry: [scale] is the standard deviation
    and must be positive. *)
Definition valid (scale : R) : bool := Rltb 0 scale.

(** [Normal.log_prob]:
    [-((value - loc) ** 2) / (2 * var) - log_scale - math.log(math.sqrt(2 * math.pi))]
    with [var = scale ** 2]. *)
Definition log_prob (loc scale value : R) : R :=
  - ((value - loc) ^ 2) / (2 * scale ^ 2) - ln scale - ln (sqrt (2 * PI)).

(** [Independent(Normal(loc, scale), 1).log_prob(value)]: the sum over the
    last dimension. *)
Definition independent_log_prob (loc scale value : seq R) : R :=
  Rsum [seq log_prob p.1.1 p.1.2 p.2 | p <- zip (zip loc scale) value].

End Defs.

End Normal.

Module MultivariateNormal.

(** One component of the batch: its mean and the Cholesky factor torch
    keeps as [_unbroadcasted_scale_tril]. *)
Record component : Type := Build {
  loc : seq R;
  unbroadcasted_scale_tril : seq (seq R)
}.

Section Defs.
Local Open Scope R_scope.

(** [constraints.positive_definite]: symmetric up to [atol = 1e-6], and
    the Cholesky factorisation succeeds. *)
Definition symmetric_check (A : seq (seq R)) : bool :=
  let n := size A in
  all (fun r => size r == n) A &&
  all (fun i => all (fun j => isclose (/ 1000000) (Rentry A i j) (Rentry A j i))
                    (iota 0 n))
      (iota 0 n).

(** [constraints.lower_cholesky]: lower triangular with a positive
    diagonal. *)
Definition lower_cholesky_check (A : seq (seq R)) : bool :=
  let n := size A in
  all (fun r => size r == n) A &&
  all (fun i => all (fun j => if (i < j)%N then Req_EM_T (Rentry A i j) 0 : bool
                              else true) (iota 0 n)
                && Rltb 0 (Rentry A i i))
      (iota 0 n).

(** The two ways [GMM.py] could name the matrix argument.  The signature
    is [MultivariateNormal(loc, covariance_matrix=None,
    precision_matrix=None, scale_tril=None)]: a second positional
    argument is the covariance matrix. *)
Inductive matrix_argument : Type :=
  | covariance_matrix (A : seq (seq R))
  | scale_tril (A : seq (seq R)).

Definition init_component (mu : seq R) (arg : matrix_argument) : result component :=
  match arg with
  | covariance_matrix A =>
      if symmetric_check A then
        match cholesky A with
        | Some L => Ok (Build mu L)
        | None => Raise TorchValueError
        end
      else Raise TorchValueError
  | scale_tril A =>
      if lower_cholesky_check A then Ok (Build mu A) else Raise TorchValueError
  end.

(** The batch of components, one per row of [loc]. *)
Fixpoint __init__ (loc : seq (seq R)) (args : seq matrix_argument)
  : result (seq component) :=
  match loc, args with
  | mu :: loc', arg :: args' =>
      let! c := init_component mu arg in
      let! cs := __init__ loc' args' in
      Ok (c :: cs)
  | _, _ => Ok [::]
  end.

(** [MultivariateNormal.log_prob]:
    [-0.5 * (d * math.log(2 * math.pi) + M) - half_log_det], where [M] is
    the squared Mahalanobis distance [|L^-1 (value - loc)|^2] and
    [half_log_det] the sum of the logarithms of the diagonal of [L]. *)
Definition log_prob (c : component) (value : seq R) : R :=
  let L := unbroadcasted_scale_tril c in
  let diff := [seq p.1 - p.2 | p <- zip value (loc c)] in
  let z := solve_lower L diff [::] in
  let M := Rdot z z in
  let half_log_det := Rsum [seq ln (Rentry L i i) | i <- iota 0 (size L)] in
  - (1 / 2) * (INR (size (loc c)) * ln (2 * PI) + M) - half_log_det.

End Defs.

End MultivariateNormal.

Module MixtureSameFamily.

Section Defs.
Local Open Scope R_scope.

(** [MixtureSameFamily.log_prob(x)] for one point: [component_log_probs]
    holds [component_distribution.log_prob(x)], one entry per component;
    the result is
    [logsumexp(component_log_probs + log_softmax(mixture.logits))]. *)
Definition log_prob (mixture_logits : seq R) (component_log_probs : seq R) : R :=
  logsumexp [seq p.1 + p.2 | p <- zip component_log_probs (log_softmax mixture_logits)].

End Defs.

End MixtureSameFamily.

(** ** torch.nn.Linear, bias-free *)

Module Linear.

Record t (T : Type) : Type := Build {
  in_features : nat;
  out_features : nat;
  weight : seq (seq T)   (* out_features x in_features *)
}.

Section Init.

Variable F : realFieldType.
Variable u : nat -> F.

(** The half-width of the interval from which [reset_parameters] draws the
    weights of a layer with the given fan-in (torch: [1 / sqrt(fan_in)]);
    a real field has no square root, so the value is a parameter. *)
Variable kaiming_bound : nat -> F.

Local Open Scope ring_scope.

(** [torch.nn.Linear(in_features, out_features, bias=False)].  The weight
    is allocated with [torch.empty((out_features, in_features))], which
    raises [TypeError] for a size that is not an integer and
    [RuntimeError] for a negative one. *)
Definition __init__ (pos : nat) (in_features : pynum F) (out_features : nat)
  : result (t F * nat) :=
  match in_features with
  | PyFloat _ => Raise TypeError
  | PyInt (Negz _) => Raise RuntimeError
  | PyInt (Posz n) =>
      let b := kaiming_bound n in
      Ok (Build n out_features
            (mkseq (fun i => mkseq (fun j => - b + u (pos + i * n + j) * (b - - b)) n)
                   out_features),
          (pos + out_features * n)%N)
  end.

End Init.

End Linear.

(** ** The abstract base class *)

Module MixtureModel.

Record t (T : Type) : Type := Build {
  num_components : nat;
  num_dims : nat;
  init_radius : T;
  init_mus : option (seq (seq T));
  logits : seq T
}.

Section Init.

Variable F : realFieldType.
Local Open Scope ring_scope.

(** The default of [init_radius] in every constructor. *)
Definition default_init_radius : F := 1.

(** [MixtureModel.__init__(self, num_components, num_dims, init_radius,
    init_mus)]; [logits] starts as [torch.zeros(num_components,)]. *)
Definition __init__ (num_components num_dims : nat) (init_radius : F)
    (init_mus : option (seq (seq F))) : t F :=
  Build num_components num_dims init_radius init_mus (zeros F num_components).

End Init.

End MixtureModel.

(** The default of [epsilon] in both [constrain_parameters]: [1e-6]. *)
Definition default_epsilon (F : realFieldType) : F := ((10 ^ 6)%:R^-1)%R.

(** ** GmmFull *)

Module GmmFull.

(** The attributes of an instance: the ones of the base class, then
    [embed], [mus] and [scale_tril]. *)
Record t (T : Type) : Type := Build {
  base : MixtureModel.t T;
  embed : Linear.t T;
  mus : seq (seq T);                (* num_components x num_dims *)
  scale_tril : seq (seq (seq T))    (* num_components x num_dims x num_dims *)
}.

Section Methods.

Variable F : realFieldType.
Variable u : nat -> F.
Variable kaiming_bound : nat -> F.

Local Open Scope ring_scope.

(** [GmmFull.__init__(self, num_components, num_dims, num_feat,
    init_radius, init_mus)].  The call of the base constructor passes
    [init_radius] and no [init_mus], so [self.init_mus] is [None] whatever
    the caller supplied. *)
Definition __init__ (pos : nat) (num_components num_dims : nat)
    (num_feat : pynum F) (init_radius : F) (init_mus : option (seq (seq F)))
  : result (t F * nat) :=
  let self_base :=
    MixtureModel.__init__ num_components num_dims init_radius None in
  let! (init_mus_t, pos1) :=
    match MixtureModel.init_mus self_base with
    | Some supplied => Ok (supplied, pos)
    | None =>
        let (r, pos') := rand u pos num_components num_dims in
        uniform_ u pos' r (- init_radius) init_radius
    end in
  let! (self_embed, pos2) := Linear.__init__ u kaiming_bound pos1 num_feat num_dims in
  let (r, pos3) := rand u pos2 num_dims num_dims in
  let lower_triangular := tril r in
  let diagonal_matrix := diag (ones F num_dims) in
  let positive_definite_matrix :=
    tensor_add (matmul lower_triangular (transpose lower_triangular))
               diagonal_matrix in
  let sigmas := nseq num_components positive_definite_matrix in
  Ok (Build self_base self_embed init_mus_t sigmas, pos3).

(** [constrain_parameters(self, epsilon)]: for every component, through
    the view [tril.diagonal()], [abs_()] and then [clamp_min_(epsilon)]. *)
Definition constrain_parameters (epsilon : F) (self : t F) : t F :=
  Build (base self) (embed self) (mus self)
    [seq on_diagonal (clamp_min_ epsilon) (on_diagonal (@abs_ F) tril)
    | tril <- scale_tril self].

(** [get_covariance_matrix(self)]: [self.scale_tril @ self.scale_tril.mT],
    component by component. *)
Definition get_covariance_matrix (self : t F) : seq (seq (seq F)) :=
  [seq matmul tril (transpose tril) | tril <- scale_tril self].

(** [component_parameters(self)] *)
Definition component_parameters (self : t F) : seq (seq (seq (seq F))) :=
  [:: [:: mus self]; scale_tril self].

(** Every tensor of the instance has the shape its constructor gives it. *)
Definition well_shaped (self : t F) : bool :=
  let k := MixtureModel.num_components (base self) in
  let d := MixtureModel.num_dims (base self) in
  [&& size (MixtureModel.logits (base self)) == k,
      has_shape k d (mus self),
      has_shape d (Linear.in_features (embed self)) (Linear.weight (embed self)),
      size (scale_tril self) == k
    & all (has_shape d d) (scale_tril self)].

End Methods.

Section Forward.

Local Open Scope R_scope.

(** The loss of [forward(self, x)] for a batch [x] of feature vectors.
    [MultivariateNormal(self.mus, self.scale_tril)] passes [scale_tril] as
    the second positional argument.  The second result of [forward], a
    sample from torch's generator, has no part in the loss and is left
    out. *)
Definition forward (self : t R) (x : seq (seq R)) : result (option R) :=
  let x := [seq linear (Linear.weight (embed self)) xb | xb <- x] in
  let mixture := Categorical.logits (MixtureModel.logits (base self)) in
  let! components :=
    MultivariateNormal.__init__ (mus self)
      [seq MultivariateNormal.covariance_matrix A | A <- scale_tril self] in
  if mixture is [::] then Ok None
  else
    Ok (omap (fun m => -1 * m)
          (mean [seq MixtureSameFamily.log_prob mixture
                       [seq MultivariateNormal.log_prob c xb | c <- components]
                | xb <- x])).

End Forward.

End GmmFull.

(** ** GmmDiagonal *)

Module GmmDiagonal.

Record t (T : Type) : Type := Build {
  base : MixtureModel.t T;
  embed : Linear.t T;
  mus : seq (seq T);           (* num_components x num_dims *)
  sigmas_diag : seq (seq T)    (* num_components x num_dims *)
}.

Section Methods.

Variable F : realFieldType.
Variable u : nat -> F.
Variable kaiming_bound : nat -> F.

Local Open Scope ring_scope.

(** [GmmDiagonal.__init__]; the base constructor is again called without
    [init_mus]. *)
Definition __init__ (pos : nat) (num_components num_dims : nat)
    (num_feat : pynum F) (init_radius : F) (init_mus : option (seq (seq F)))
  : result (t F * nat) :=
  let self_base :=
    MixtureModel.__init__ num_components num_dims init_radius None in
  let! (init_mus_t, pos1) :=
    match MixtureModel.init_mus self_base with
    | Some supplied => Ok (supplied, pos)
    | None =>
        let (r, pos') := rand u pos num_components num_dims in
        uniform_ u pos' r (- init_radius) init_radius
    end in
  let! (self_embed, pos2) := Linear.__init__ u kaiming_bound pos1 num_feat num_dims in
  let (r, pos3) := rand u pos2 num_components num_dims in
  Ok (Build self_base self_embed init_mus_t r, pos3).

(** [constrain_parameters(self, epsilon)]: every row of [sigmas_diag] gets
    [abs_()] and then [clamp_min_(epsilon)]. *)
Definition constrain_parameters (epsilon : F) (self : t F) : t F :=
  Build (base self) (embed self) (mus self)
    [seq [seq clamp_min_ epsilon x | x <- [seq abs_ x | x <- diag]]
    | diag <- sigmas_diag self].

(** [get_covariance_matrix(self)]: [torch.diag_embed(self.sigmas_diag)]. *)
Definition get_covariance_matrix (self : t F) : seq (seq (seq F)) :=
  diag_embed (sigmas_diag self).

Definition component_parameters (self : t F) : seq (seq (seq F)) :=
  [:: mus self; sigmas_diag self].

Definition well_shaped (self : t F) : bool :=
  let k := MixtureModel.num_components (base self) in
  let d := MixtureModel.num_dims (base self) in
  [&& size (MixtureModel.logits (base self)) == k,
      has_shape k d (mus self),
      has_shape d (Linear.in_features (embed self)) (Linear.weight (embed self))
    & has_shape k d (sigmas_diag self)].

End Methods.

Section Forward.

Local Open Scope R_scope.

(** The loss of [forward(self, x)]:
    [Independent(Normal(self.mus, self.sigmas_diag), 1)] takes
    [sigmas_diag] as the standard deviations.  The sample is left out as
    for [GmmFull]. *)
Definition forward (self : t R) (x : seq (seq R)) : result (option R) :=
  let x := [seq linear (Linear.weight (embed self)) xb | xb <- x] in
  let mixture := Categorical.logits (MixtureModel.logits (base self)) in
  if all (all Normal.valid) (sigmas_diag self) then
    if mixture is [::] then Ok None
    else
      Ok (omap (fun m => -1 * m)
            (mean [seq MixtureSameFamily.log_prob mixture
                         [seq Normal.independent_log_prob p.1 p.2 xb
                         | p <- zip (mus self) (sigmas_diag self)]
                  | xb <- x]))
  else Raise TorchValueError.

End Forward.

End GmmDiagonal.

(** ** The factory *)

Inductive model (T : Type) : Type :=
  | IsFull (m : GmmFull.t T)
  | IsDiagonal (m : GmmDiagonal.t T).

Section Factory.

Variable F : realFieldType.
Variable u : nat -> F.
Variable kaiming_bound : nat -> F.

(** [get_model(mixture_family, num_components, num_dims, radius)].  Both
    constructors are called with three positional arguments, so [radius]
    arrives as their third parameter, [num_feat]; [init_radius] and
    [init_mus] take their defaults. *)
Definition get_model (pos : nat) (mixture_family : MixtureFamily)
    (num_components num_dims : nat) (radius : pynum F)
  : result (model F * nat) :=
  match mixture_family with
  | FULL =>
      let! (m, pos') :=
        GmmFull.__init__ u kaiming_bound pos num_components num_dims radius
          (MixtureModel.default_init_radius F) None in
      Ok (IsFull m, pos')
  | DIAGONAL =>
      let! (m, pos') :=
        GmmDiagonal.__init__ u kaiming_bound pos num_components num_dims radius
          (MixtureModel.default_init_radius F) None in
      Ok (IsDiagonal m, pos')
  | _ =>
      Raise (NotImplementedError
               ("Mixture family " ++ value mixture_family ++ " not implemented yet")%string)
  end.

(** The value a Python number has as a real. *)
Definition pynum_val (x : pynum F) : F :=
  match x with
  | PyInt z => z%:~R
  | PyFloat x => x
  end%R.

End Factory.

(** ** The probability warp *)

Section Warp.

Local Open Scope R_scope.

(** [warp_probs(probs, target_value)]:
    [alpha = numpy.log(target_value) / numpy.log(1 / len(probs))], then
    [probs ** alpha].  The left operand of the quotient is evaluated
    first; [1 / len(probs)] divides Python integers. *)
Definition warp_probs (probs : seq R) (target_value : R) : result (option (seq R)) :=
  let log_target := numpy_log target_value in
  let! inv_len := int_true_div 1 (size probs) in
  let alpha :=
    if log_target is Some a then
      if numpy_log inv_len is Some b then float_div a b else None
    else None in
  Ok (if alpha is Some alpha
      then sequence [seq float_pow p alpha | p <- probs]
      else None).

(** The default of [target_value]. *)
Definition default_target_value : R := 3 / 4.

(** The uniform probability vector of length [n]. *)
Definition uniform_vector (n : nat) : seq R := nseq n (1 / INR n).

(** ** Closed forms of the Gaussian negative log density *)

(** In one dimension, with mean [mu] and variance [var]. *)
Definition gaussian_nll_1d (mu var x : R) : R :=
  (ln (2 * PI * var) + (x - mu) ^ 2 / var) / 2.

(** With mean [mu] and covariance [diag(var)]: the dimensions are
    independent, so the densities multiply. *)
Definition gaussian_nll_diag (mu var x : seq R) : R :=
  Rsum [seq gaussian_nll_1d p.1.1 p.1.2 p.2 | p <- zip (zip mu var) x].

End Warp.

(** ** Matrices read off nested sequences *)

Section Read.

Variable F : realFieldType.
Local Open Scope ring_scope.

(** The [d x d] matrix a 2-D tensor holds. *)
Definition mx_of (d : nat) (A : seq (seq F)) : 'M[F]_d :=
  \matrix_(i, j) entry A i j.

(** Symmetric, and positive semi-definite as a quadratic form (for a
    symmetric matrix the same as having no negative eigenvalue). *)
Definition symmetric (d : nat) (A : 'M[F]_d) : Prop := A^T = A.

Definition positive_semidefinite (d : nat) (A : 'M[F]_d) : Prop :=
  forall x : 'rV[F]_d, 0 <= (x *m A *m x^T) 0 0.

(** Lower triangular: nothing but zeros above the diagonal. *)
Definition lower_triangular (A : seq (seq F)) : bool :=
  all (fun i => all (fun j => (j <= i)%N || (entry A i j == 0))
                    (iota 0 (size (nth [::] A i))))
      (iota 0 (size A)).

(** What the two steps of [constrain_parameters] do to one entry. *)
Definition repair (epsilon : F) : F -> F := clamp_min_ epsilon \o @abs_ F.

End Read.

(** ** Concrete instances over the rationals *)

Section Instances.

Local Open Scope ring_scope.

(** One component in two dimensions with a lower-triangular scale factor
    that has a negative and a vanishing diagonal entry. *)
Definition example_full : GmmFull.t rat :=
  GmmFull.Build
    (MixtureModel.Build 1 2 1 None [:: 0])
    (Linear.Build 1 2 [:: [:: 1]; [:: 1]])
    [:: [:: 0; 0]]
    [:: [:: [:: - 3%:Q; 0]; [:: 2%:Q; 0]]].


(** One component in two dimensions with a negative and a vanishing
    scale. *)
Definition example_diagonal : GmmDiagonal.t rat :=
  GmmDiagonal.Build
    (MixtureModel.Build 1 2 1 None [:: 0])
    (Linear.Build 1 2 [:: [:: 1]; [:: 1]])
    [:: [:: 0; 0]]
    [:: [:: - 3%:Q; 0]].

(** One component in one dimension with scale two. *)
Definition scale_two_diagonal : GmmDiagonal.t rat :=
  GmmDiagonal.Build
    (MixtureModel.Build 1 1 1 None [:: 0])
    (Linear.Build 1 1 [:: [:: 1]])
    [:: [:: 0]]
    [:: [:: 2%:Q]].

End Instances.

(** ** What the claims compare the code with *)

Section Claimed.

Variable F : realFieldType.
Local Open Scope ring_scope.

(** The covariance of the distribution that [GmmDiagonal.forward]
    evaluates: [sigmas_diag] holds standard deviations, so component [c]
    has covariance [diag(sigmas_diag[c] ** 2)]. *)
Definition diagonal_covariance (self : GmmDiagonal.t F) : seq (seq (seq F)) :=
  [seq diag [seq x ^+ 2 | x <- v] | v <- GmmDiagonal.sigmas_diag self].

End Claimed.

(** ** Concrete instances over the real numbers *)

Section RealInstances.

Local Open Scope R_scope.

(** A [GmmDiagonal] with one component: mixing logit [l], mean [mu],
    scales [sigma], embedding weight [W]. *)
Definition single_diagonal (l : R) (mu sigma : seq R) (W : seq (seq R))
  : GmmDiagonal.t R :=
  GmmDiagonal.Build
    (MixtureModel.Build 1 (size mu) 1 None [:: l])
    (Linear.Build (size (head [::] W)) (size W) W)
    [:: mu]
    [:: sigma].

(** A [GmmFull] with one component in one dimension: mixing logit [l],
    mean [mu], scale factor [[s]], embedding weight [[w]]. *)
Definition single_full_1d (l mu s w : R) : GmmFull.t R :=
  GmmFull.Build
    (MixtureModel.Build 1 1 1 None [:: l])
    (Linear.Build 1 1 [:: [:: w]])
    [:: [:: mu]]
    [:: [:: [:: s]]].

End RealInstances.


(** ** The real numbers as a real field

    The classes are stated over a real field [F]; this instance lets them
    be used at the real numbers [R], next to the likelihood. *)

Section RealField.

Local Open Scope R_scope.

Definition eqr (x y : R) : bool := if Req_EM_T x y then true else false.

Fact eqr_reflect : Equality.axiom eqr.
Proof. by move=> x y; rewrite /eqr; case: Req_EM_T => h; constructor. Qed.

HB.instance Definition _ := hasDecEq.Build R eqr_reflect.

Fact inhabited_R : inhabited R.
Proof. exact: (inhabits 0). Qed.

Definition pickR (P : pred R) (n : nat) : option R :=
  let x := epsilon inhabited_R P in if P x then Some x else None.

Fact pickR_some P n x : pickR P n = Some x -> P x.
Proof. by rewrite /pickR; case: (boolP (P _)) => // Px [<-]. Qed.

Fact pickR_ex (P : pred R) : (exists x : R, P x) -> exists n, pickR P n.
Proof.
by rewrite /pickR => exP; exists 0%N; rewrite (epsilon_spec inhabited_R P exP).
Qed.

Fact pickR_ext (P Q : pred R) : P =1 Q -> pickR P =1 pickR Q.
Proof.
move=> PQ n; rewrite /pickR.
by have -> : P = Q by apply: functional_extensionality.
Qed.

HB.instance Definition _ := hasChoice.Build R pickR_some pickR_ex pickR_ext.

Fact Rplus_associative : associative Rplus.
Proof. by move=> x y z; rewrite Rplus_assoc. Qed.

HB.instance Definition _ :=
  GRing.isZmodule.Build R Rplus_associative Rplus_comm Rplus_0_l Rplus_opp_l.

Fact Rmult_associative : associative Rmult.
Proof. by move=> x y z; rewrite Rmult_assoc. Qed.

Fact R1_neq_zero : R1 != R0.
Proof. by apply/eqP/R1_neq_R0. Qed.

HB.instance Definition _ := GRing.Zmodule_isComNzRing.Build R
  Rmult_associative Rmult_comm Rmult_1_l Rmult_plus_distr_r R1_neq_zero.

Fact Rinv_left (x : R) : x != 0 :> R -> / x * x = 1.
Proof. by move=> /eqP x_neq0; rewrite Rinv_l. Qed.

HB.instance Definition _ := GRing.ComNzRing_isField.Build R Rinv_left Rinv_0.

Fact Rleb_reflect (x y : R) : reflect (x <= y) (Rleb x y).
Proof. by rewrite /Rleb; case: Rle_dec => h; constructor. Qed.

Fact Rltb_reflect (x y : R) : reflect (x < y) (Rltb x y).
Proof. by rewrite /Rltb; case: Rlt_dec => h; constructor. Qed.

Fact Rleb0_add (x y : R) : Rleb 0 x -> Rleb 0 y -> Rleb 0 (x + y).
Proof. by move=> /Rleb_reflect hx /Rleb_reflect hy; apply/Rleb_reflect; Rlra. Qed.

Fact Rleb0_mul (x y : R) : Rleb 0 x -> Rleb 0 y -> Rleb 0 (x * y).
Proof.
by move=> /Rleb_reflect hx /Rleb_reflect hy; apply/Rleb_reflect; apply: Rmult_le_pos.
Qed.

Fact Rleb0_anti (x : R) : Rleb 0 x -> Rleb x 0 -> x = 0.
Proof. by move=> /Rleb_reflect hx /Rleb_reflect hy; Rlra. Qed.

Fact Rleb_sub_ge0 (x y : R) : Rleb 0 (y - x) = Rleb x y.
Proof. by apply/Rleb_reflect/Rleb_reflect => h; Rlra. Qed.

Fact Rleb0_total (x : R) : Rleb 0 x || Rleb x 0.
Proof.
case: (Rle_dec 0 x) => [/Rleb_reflect -> //|h].
by apply/orP; right; apply/Rleb_reflect; Rlra.
Qed.

Fact Rabs_opp (x : R) : Rabs (- x) = Rabs x.
Proof. exact: Rabs_Ropp. Qed.

Fact Rabs_ge0_eq (x : R) : Rleb 0 x -> Rabs x = x.
Proof. by move=> /Rleb_reflect hx; rewrite Rabs_pos_eq. Qed.

Fact Rltb_def (x y : R) : Rltb x y = (y != x) && Rleb x y.
Proof.
apply/Rltb_reflect/andP => [lt_xy|[/eqP ne_yx /Rleb_reflect le_xy]].
  by split; [apply/eqP; Rlra | apply/Rleb_reflect; Rlra].
by case: le_xy => // eq_xy; case: ne_yx.
Qed.

HB.instance Definition _ := Num.IntegralDomain_isLeReal.Build R
  Rleb0_add Rleb0_mul Rleb0_anti Rleb_sub_ge0 Rleb0_total Rabs_opp Rabs_ge0_eq
  Rltb_def.

End RealField.

(** ** Batches

    A batch [x] that [self.embed] accepts: every vector has
    [in_features] entries. *)

Definition batch_fits (T : Type) (embed : Linear.t T) (x : seq (seq T)) : bool :=
  all (fun xb => size xb == Linear.in_features embed) x.

(** ** Mixing probabilities and densities *)

Section Mixing.

Local Open Scope R_scope.

Definition Rprod (v : seq R) : R := foldr Rmult 1 v.

(** [torch.softmax(v, -1)] *)
Definition softmax (v : seq R) : seq R :=
  [seq exp x / Rsum [seq exp y | y <- v] | x <- v].

(** [logits_to_probs(logits)] of [torch.distributions.utils], for logits
    that are not binary *)
Definition logits_to_probs (logits : seq R) : seq R := softmax logits.

(** [MixtureModel.get_probs(self)] *)
Definition get_probs (self : MixtureModel.t R) : seq R :=
  logits_to_probs (MixtureModel.logits self).

(** [MixtureModel.mixture_parameters(self)]: [iter([self.logits])] *)
Definition mixture_parameters (T : Type) (self : MixtureModel.t T) : seq (seq T) :=
  [:: MixtureModel.logits self].

(** The density of the normal distribution with mean [mu] and standard
    deviation [sigma], and of independent normal coordinates. *)
Definition normal_density (mu sigma x : R) : R :=
  / (sigma * sqrt (2 * PI)) * exp (- ((x - mu) ^ 2 / (2 * sigma ^ 2))).

Definition normal_density_diag (mu sigma x : seq R) : R :=
  Rprod [seq normal_density p.1.1 p.1.2 p.2 | p <- zip (zip mu sigma) x].

(** The density of the mixture with the given weights, means and standard
    deviations. *)
Definition mixture_density (weights : seq R) (mus sigmas : seq (seq R))
    (x : seq R) : R :=
  Rsum [seq p.2 * normal_density_diag p.1.1 p.1.2 x
       | p <- zip (zip mus sigmas) weights].

(** The exponent of the warp for a vector of length [n]. *)
Definition warp_exponent (n : nat) (target_value : R) : R :=
  ln target_value / ln (1 / INR n).

(** [p ** a] for a base [p >= 0] and an exponent [a > 0], as torch
    computes it: zero stays zero. *)
Definition nonneg_pow (a p : R) : R := if Rlt_dec 0 p then Rpower p a else 0.

End Mixing.

(** ** Random covariance matrices and scale factors

    [numpy.random.normal] and [numpy.corrcoef] are numpy's: the first is
    a function of the position in numpy's generator and of the shape that
    returns the sample and the next position, the second a function on
    2-D arrays. *)

Section RandomCovariance.

Variable F : realFieldType.
Variable normal : nat -> nat -> nat -> seq (seq F) * nat.
Variable corrcoef : seq (seq F) -> seq (seq F).

Local Open Scope ring_scope.

(** The default of [observations_per_variable]. *)
Definition default_observations_per_variable : nat := 10.

(** [make_random_cov_matrix(num_dims, observations_per_variable)] *)
Definition make_random_cov_matrix (pos : nat) (num_dims : nat)
    (observations_per_variable : nat) : seq (seq F) * nat :=
  if num_dims == 1%N then ([:: [:: 1]], pos)
  else
    let (observations, pos') := normal pos num_dims observations_per_variable in
    (corrcoef observations, pos').

(** [make_random_scale_trils(num_sigmas, num_dims)]: the list
    comprehension over [range(num_sigmas)] draws one covariance matrix
    after the other and keeps the lower triangle ([numpy.tril]) of
    each. *)
Fixpoint make_random_scale_trils (pos : nat) (num_sigmas num_dims : nat)
  : seq (seq (seq F)) * nat :=
  match num_sigmas with
  | 0 => ([::], pos)
  | n.+1 =>
      let (cov, pos1) :=
        make_random_cov_matrix pos num_dims default_observations_per_variable in
      let (rest, pos2) := make_random_scale_trils pos1 n num_dims in
      (tril cov :: rest, pos2)
  end.

End RandomCovariance.

(** ** Further instances over the real numbers *)

Section FurtherRealInstances.

Local Open Scope R_scope.

(** Two components in one dimension, means 0 and 1, both scales 1, equal
    logits, identity embedding. *)
Definition two_component_diagonal : GmmDiagonal.t R :=
  GmmDiagonal.Build
    (MixtureModel.Build 2 1 1 None [:: 0; 0])
    (Linear.Build 1 1 [:: [:: 1]])
    [:: [:: 0]; [:: 1]]
    [:: [:: 1]; [:: 1]].

(** One component in one dimension with the scale 4. *)
Definition variance_four_diagonal : GmmDiagonal.t R :=
  GmmDiagonal.Build
    (MixtureModel.Build 1 1 1 None [:: 0])
    (Linear.Build 1 1 [:: [:: 1]])
    [:: [:: 0]]
    [:: [:: 4]].

(** Row [i] of an [n x n] diagonal matrix with the diagonal entry [a]. *)
Definition diag_row (n : nat) (i : nat) (a : R) : seq R :=
  nseq i 0 ++ a :: nseq (n - i.+1) 0.

End FurtherRealInstances.

(** * Theorems *)

(** *** The registry *)

Lemma first_with_value_sound (s : string) (todo : seq MixtureFamily) (family : MixtureFamily) :
  first_with_value s todo = Some family -> value family = s.
Proof.
elim: todo => [|f todo IH] //=.
by case: (String.eqb_spec (value f) s) => [<- [<-]|_].
Qed.

Lemma first_with_value_members (family : MixtureFamily) :
  first_with_value (value family) members = Some family.
Proof. by case: family. Qed.

Lemma value_in_tags (family : MixtureFamily) : List.In (value family) tags.
Proof. by case: family; rewrite /=; tauto. Qed.

Lemma tag_is_value (s : string) : List.In s tags -> exists family, value family = s.
Proof.
rewrite /=; case=> [<-|[<-|[<-|[<-|[<-|[]]]]]];
  [by exists FULL|by exists DIAGONAL|by exists ISOTROPIC
  |by exists SHARED_ISOTROPIC|by exists CONSTANT].
Qed.


(** C6. The lookup succeeds exactly on the five tag strings, and then
    returns the family with that tag; every other string, among them the
    empty string and the tags in another case, raises [ValueError] with a
    message that names the string and lists the five tags. *)
Theorem lookup_exactly_the_tags (s : string) :
  [/\ (exists family, get_mixture_family_from_str s = Ok family) <-> List.In s tags,
      forall family, get_mixture_family_from_str s = Ok family -> value family = s,
      ~ List.In s tags ->
        get_mixture_family_from_str s = Raise (ValueError (unknown_family_message s))
    & [/\ get_mixture_family_from_str EmptyString
          = Raise (ValueError (unknown_family_message EmptyString)),
          get_mixture_family_from_str "Full" = Raise (ValueError (unknown_family_message "Full"))
        & get_mixture_family_from_str "FULL" = Raise (ValueError (unknown_family_message "FULL"))]].
Proof.
have sound family : get_mixture_family_from_str s = Ok family -> value family = s.
  rewrite /get_mixture_family_from_str.
  case E: (first_with_value s members) => [f|] // [<-].
  exact: first_with_value_sound E.
split=> //.
- split=> [[family /sound <-]|/tag_is_value [family <-]]; first exact: value_in_tags.
  by exists family; rewrite /get_mixture_family_from_str first_with_value_members.
- move=> notin; rewrite /get_mixture_family_from_str.
  case E: (first_with_value s members) => [f|] //.
  by case: notin; rewrite -(first_with_value_sound E); exact: value_in_tags.
Qed.

Lemma lookup_exactly_the_tags_witness :
  get_mixture_family_from_str "diagonal" = Ok DIAGONAL
  /\ get_mixture_family_from_str "Diagonal"
     = Raise (ValueError (unknown_family_message "Diagonal")).
Proof.
have [iff _ unknown _] := lookup_exactly_the_tags "Diagonal".
split; first by [].
by apply: unknown; rewrite /=; intuition discriminate.
Defined.

Section TensorLemmas.

Variable F : realFieldType.
Local Open Scope ring_scope.

Implicit Types (A B : seq (seq F)) (v r : seq F) (f g : F -> F).

(** *** Shapes and entries *)

Lemma has_shapeP (n m : nat) A :
  reflect (size A = n /\ forall i, (i < n)%N -> size (nth [::] A i) = m)
          (has_shape n m A).
Proof.
apply: (iffP andP) => [[/eqP sA /all_nthP rows]|[sA rows]].
  by split=> // i; rewrite -sA => /(rows [::]) /eqP.
split; first exact/eqP.
by apply/(all_nthP [::]) => i; rewrite sA => /rows ->.
Qed.

Lemma ncols_shape (n m : nat) A : has_shape n m A -> (0 < n)%N -> ncols A = m.
Proof.
move=> /has_shapeP [sA rows] n_gt0.
by rewrite /ncols -nth0 rows.
Qed.

Lemma dot_nth (d : nat) r v :
  size r = d -> size v = d -> dot r v = \sum_(k < d) nth 0 r k * nth 0 v k.
Proof.
move=> sr sv; rewrite /dot (big_nth (0, 0)) size_zip sr sv minnn big_mkord.
by apply: eq_bigr => k _; rewrite nth_zip ?sr ?sv.
Qed.

Lemma entry_transpose A (i j : nat) :
  (j < ncols A)%N -> (i < size A)%N -> entry (transpose A) j i = entry A i j.
Proof.
move=> lt_j lt_i.
by rewrite /entry /transpose nth_mkseq // /col (nth_map [::]).
Qed.

Lemma transpose_shape (d : nat) A : has_shape d d A -> has_shape d d (transpose A).
Proof.
case: d => [|d] shA.
  by move/has_shapeP: (shA) => [/size0nil -> _].
have nc := ncols_shape shA (ltn0Sn d).
move/has_shapeP: shA => [sA rows].
apply/has_shapeP; split; first by rewrite /transpose size_mkseq.
by move=> i lt_i; rewrite /transpose nc nth_mkseq // /col size_map.
Qed.

Lemma mx_of_transpose (d : nat) A :
  has_shape d d A -> mx_of d (transpose A) = (mx_of d A)^T.
Proof.
move=> shA; apply/matrixP => i j; rewrite !mxE.
have d_gt0 : (0 < d)%N by exact: leq_ltn_trans (ltn_ord i).
rewrite entry_transpose // ?(ncols_shape shA) //.
by move/has_shapeP: shA => [-> _].
Qed.

Lemma row_transpose (d : nat) A (j : nat) :
  has_shape d d A -> (j < d)%N ->
  nth [::] (transpose A) j = mkseq (fun k => entry A k j) d.
Proof.
move=> shA lt_j.
have d_gt0 : (0 < d)%N by exact: leq_ltn_trans lt_j.
rewrite /transpose (ncols_shape shA) // nth_mkseq // /col.
move/has_shapeP: shA => [sA _].
apply: (@eq_from_nth _ 0); first by rewrite size_map size_mkseq.
move=> k; rewrite size_map sA => lt_k.
by rewrite (nth_map [::]) ?sA // nth_mkseq.
Qed.

Lemma mx_of_matmul (d : nat) A B :
  has_shape d d A -> has_shape d d B ->
  mx_of d (matmul A B) = mx_of d A *m mx_of d B.
Proof.
move=> shA shB; apply/matrixP => i j; rewrite !mxE.
have shT := transpose_shape shB.
move/has_shapeP: (shA) => [sA rowsA].
move/has_shapeP: (shT) => [sT rowsT].
rewrite /entry /matmul (nth_map [::]) ?sA // (nth_map [::]) ?sT //.
rewrite (@dot_nth d) ?rowsA ?rowsT //.
have d_gt0 : (0 < d)%N by exact: leq_ltn_trans (ltn_ord i).
have sB : size B = d by move/has_shapeP: (shB) => [].
apply: eq_bigr => k _; rewrite mxE.
rewrite -[nth 0 (nth [::] (transpose B) j) k]/(entry (transpose B) j k).
by rewrite entry_transpose ?(ncols_shape shB) ?sB // mxE.
Qed.

Lemma mx_of_covariance (d : nat) A :
  has_shape d d A ->
  mx_of d (matmul A (transpose A)) = mx_of d A *m (mx_of d A)^T.
Proof.
by move=> shA; rewrite mx_of_matmul ?transpose_shape // mx_of_transpose.
Qed.

(** *** Operations through the diagonal view *)

Lemma size_on_diagonal f A : size (on_diagonal f A) = size A.
Proof. by rewrite /on_diagonal size_mkseq. Qed.

Lemma size_row_on_diagonal f A (i : nat) :
  size (nth [::] (on_diagonal f A) i) = size (nth [::] A i).
Proof.
rewrite /on_diagonal; case: (ltnP i (size A)) => lt_i.
  by rewrite nth_mkseq // size_mkseq.
by rewrite !nth_default // size_mkseq.
Qed.

Lemma entry_on_diagonal f A (i j : nat) :
  (i < size A)%N -> (j < size (nth [::] A i))%N ->
  entry (on_diagonal f A) i j = if i == j then f (entry A i j) else entry A i j.
Proof. by move=> lt_i lt_j; rewrite /entry /on_diagonal !nth_mkseq. Qed.

Lemma entry_on_diagonal_off f A (i j : nat) :
  i != j -> entry (on_diagonal f A) i j = entry A i j.
Proof.
move=> ne_ij; case: (ltnP i (size A)) => lt_i; last first.
  by rewrite /entry !(@nth_default _ [::]) ?size_on_diagonal.
case: (ltnP j (size (nth [::] A i))) => lt_j.
  by rewrite entry_on_diagonal // (negPf ne_ij).
by rewrite /entry !(@nth_default _ 0) ?size_row_on_diagonal.
Qed.


Lemma on_diagonal_comp f g A :
  on_diagonal f (on_diagonal g A) = on_diagonal (f \o g) A.
Proof.
apply: (@eq_from_nth _ [::]); first by rewrite !size_on_diagonal.
move=> i; rewrite !size_on_diagonal => lt_i.
apply: (@eq_from_nth _ 0); first by rewrite !size_row_on_diagonal.
move=> j; rewrite !size_row_on_diagonal => lt_j.
rewrite -!/(entry _ i j) !entry_on_diagonal ?size_on_diagonal ?size_row_on_diagonal //.
by case: eqP.
Qed.

Lemma eq_on_diagonal f g A : f =1 g -> on_diagonal f A = on_diagonal g A.
Proof.
move=> fg; apply: (@eq_from_nth _ [::]); first by rewrite !size_on_diagonal.
move=> i; rewrite !size_on_diagonal => lt_i.
apply: (@eq_from_nth _ 0); first by rewrite !size_row_on_diagonal.
move=> j; rewrite !size_row_on_diagonal => lt_j.
by rewrite -!/(entry _ i j) !entry_on_diagonal // fg.
Qed.

(** *** The repair of one entry *)


Lemma repair_idem (epsilon x : F) : repair epsilon (repair epsilon x) = repair epsilon x.
Proof.
rewrite /repair /= /clamp_min_ /abs_.
have ge0 : 0 <= Num.max `|x| epsilon by rewrite le_max normr_ge0.
by rewrite (ger0_norm ge0) -maxA maxxx.
Qed.

End TensorLemmas.

Section RepairLemmas.

Variable F : realFieldType.
Local Open Scope ring_scope.

Implicit Types (A : seq (seq F)) (epsilon : F).

Lemma full_repair epsilon (self : GmmFull.t F) :
  GmmFull.scale_tril (GmmFull.constrain_parameters epsilon self)
  = [seq on_diagonal (repair epsilon) tril | tril <- GmmFull.scale_tril self].
Proof. by apply: eq_map => tril; rewrite on_diagonal_comp. Qed.

Lemma diagonal_repair epsilon (self : GmmDiagonal.t F) :
  GmmDiagonal.sigmas_diag (GmmDiagonal.constrain_parameters epsilon self)
  = [seq [seq repair epsilon x | x <- diag] | diag <- GmmDiagonal.sigmas_diag self].
Proof. by apply: eq_map => diag; rewrite -map_comp. Qed.

Lemma full_constrain_idempotent epsilon (self : GmmFull.t F) :
  GmmFull.constrain_parameters epsilon (GmmFull.constrain_parameters epsilon self)
  = GmmFull.constrain_parameters epsilon self.
Proof.
rewrite {1}/GmmFull.constrain_parameters full_repair /=.
congr GmmFull.Build; rewrite -map_comp; apply: eq_map => tril /=.
rewrite !on_diagonal_comp; apply: eq_on_diagonal => x /=.
exact: repair_idem.
Qed.

Lemma diagonal_constrain_idempotent epsilon (self : GmmDiagonal.t F) :
  GmmDiagonal.constrain_parameters epsilon (GmmDiagonal.constrain_parameters epsilon self)
  = GmmDiagonal.constrain_parameters epsilon self.
Proof.
rewrite {1}/GmmDiagonal.constrain_parameters diagonal_repair /=.
congr GmmDiagonal.Build; rewrite -map_comp; apply: eq_map => diag /=.
rewrite -!map_comp; apply: eq_map => x /=.
exact: repair_idem.
Qed.

(** C7. For a positive [epsilon], a second [constrain_parameters] in a row
    changes nothing: the instance after two calls is the instance after
    one, for [GmmFull] and for [GmmDiagonal]. *)
Theorem constrain_parameters_idempotent epsilon :
  0 < epsilon ->
  (forall self : GmmFull.t F,
     GmmFull.constrain_parameters epsilon (GmmFull.constrain_parameters epsilon self)
     = GmmFull.constrain_parameters epsilon self)
  /\ (forall self : GmmDiagonal.t F,
        GmmDiagonal.constrain_parameters epsilon
          (GmmDiagonal.constrain_parameters epsilon self)
        = GmmDiagonal.constrain_parameters epsilon self).
Proof.
move=> _; split=> self.
  exact: full_constrain_idempotent.
exact: diagonal_constrain_idempotent.
Qed.

(** C9. [constrain_parameters] leaves the attributes of the base class
    (the mixing logits among them), the embedding and the means as they
    are.  In [GmmFull] the stack of scale factors keeps its shape and
    every entry off the diagonal of every component; in [GmmDiagonal]
    only [sigmas_diag] is written, and it keeps its shape. *)
Theorem constrain_parameters_frame epsilon :
  (forall self : GmmFull.t F,
     let self' := GmmFull.constrain_parameters epsilon self in
     [/\ GmmFull.base self' = GmmFull.base self,
         MixtureModel.logits (GmmFull.base self') = MixtureModel.logits (GmmFull.base self),
         GmmFull.embed self' = GmmFull.embed self,
         GmmFull.mus self' = GmmFull.mus self
       & [/\ size (GmmFull.scale_tril self') = size (GmmFull.scale_tril self),
             forall c, size (nth [::] (GmmFull.scale_tril self') c)
                       = size (nth [::] (GmmFull.scale_tril self) c)
           & forall c i j, i != j ->
               entry (nth [::] (GmmFull.scale_tril self') c) i j
               = entry (nth [::] (GmmFull.scale_tril self) c) i j]])
  /\ (forall self : GmmDiagonal.t F,
        let self' := GmmDiagonal.constrain_parameters epsilon self in
        [/\ GmmDiagonal.base self' = GmmDiagonal.base self,
            MixtureModel.logits (GmmDiagonal.base self')
            = MixtureModel.logits (GmmDiagonal.base self),
            GmmDiagonal.embed self' = GmmDiagonal.embed self,
            GmmDiagonal.mus self' = GmmDiagonal.mus self
          & size (GmmDiagonal.sigmas_diag self') = size (GmmDiagonal.sigmas_diag self)
            /\ (forall c, size (nth [::] (GmmDiagonal.sigmas_diag self') c)
                          = size (nth [::] (GmmDiagonal.sigmas_diag self) c))]).
Proof.
split=> self self'.
  have nth_tril c :
      nth [::] (GmmFull.scale_tril self') c
      = on_diagonal (repair epsilon) (nth [::] (GmmFull.scale_tril self) c).
    rewrite /self' full_repair.
    case: (ltnP c (size (GmmFull.scale_tril self))) => lt_c.
      by rewrite (nth_map [::]).
    by rewrite !nth_default ?size_map.
  split=> //; split=> [|c|c i j ne_ij].
  - by rewrite /self' full_repair size_map.
  - by rewrite nth_tril size_on_diagonal.
  - by rewrite nth_tril entry_on_diagonal_off.
split=> //; rewrite /self' diagonal_repair size_map; split=> // c.
case: (ltnP c (size (GmmDiagonal.sigmas_diag self))) => lt_c.
  by rewrite (nth_map [::]) // size_map.
by rewrite !nth_default ?size_map.
Qed.

End RepairLemmas.

Section CovarianceLemmas.

Variable F : realFieldType.
Local Open Scope ring_scope.

Implicit Types (A : seq (seq F)) (v : seq F) (epsilon : F).





Lemma gram_symmetric (d : nat) (L : 'M[F]_d) : symmetric (L *m L^T).
Proof. by rewrite /symmetric trmx_mul trmxK. Qed.

Lemma gram_positive_semidefinite (d : nat) (L : 'M[F]_d) :
  positive_semidefinite (L *m L^T).
Proof.
move=> x; rewrite mulmxA -mulmxA -trmx_mul mxE.
by apply: sumr_ge0 => k _; rewrite [_^T k 0]mxE -expr2 sqr_ge0.
Qed.



Lemma mx_of_diag (d : nat) v :
  size v = d -> mx_of d (diag v) = diag_mx (\row_j nth 0 v j).
Proof.
move=> sv; apply/matrixP => i j; rewrite !mxE /entry /diag sv !nth_mkseq //.
by rewrite -val_eqE /=; case: eqP => //=; rewrite ?mulr1n ?mulr0n.
Qed.


End CovarianceLemmas.

Section Validity.

Variable F : realFieldType.
Local Open Scope ring_scope.

Implicit Types (epsilon : F).




End Validity.

Section RationalInstances.

Local Open Scope ring_scope.

Lemma half_gt0 : 0 < 1 / 2 :> rat.
Proof. by []. Qed.

Lemma constrain_parameters_idempotent_witness :
  (0 < 1 / 2 :> rat)
  /\ GmmFull.constrain_parameters (1 / 2)
       (GmmFull.constrain_parameters (1 / 2) example_full)
     = GmmFull.constrain_parameters (1 / 2) example_full.
Proof.
split; first by [].
by have [full _] := @constrain_parameters_idempotent rat (1 / 2) isT.
Defined.



End RationalInstances.

Section ReadOut.

Variable F : realFieldType.
Local Open Scope ring_scope.

Lemma diagonal_read_out_entry (self : GmmDiagonal.t F) (c i j : nat) :
  (c < size (GmmDiagonal.sigmas_diag self))%N ->
  (i < size (nth [::] (GmmDiagonal.sigmas_diag self) c))%N ->
  (j < size (nth [::] (GmmDiagonal.sigmas_diag self) c))%N ->
  entry (nth [::] (GmmDiagonal.get_covariance_matrix self) c) i j
  = if i == j then nth 0 (nth [::] (GmmDiagonal.sigmas_diag self) c) i else 0.
Proof.
move=> lt_c lt_i lt_j.
by rewrite /GmmDiagonal.get_covariance_matrix /diag_embed (nth_map [::]) //
           /entry /diag !nth_mkseq.
Qed.

End ReadOut.

(** C2 fails on the code.  [GmmDiagonal.get_covariance_matrix] puts the
    entries of [sigmas_diag] themselves on the diagonal: for the scale 2
    it returns [[[2]]], where the covariance of the distribution is
    [[[4]]]. *)
Theorem diagonal_read_out_not_squared :
  [/\ GmmDiagonal.get_covariance_matrix scale_two_diagonal = [:: [:: [:: 2%:Q]]],
      diagonal_covariance scale_two_diagonal = [:: [:: [:: 4%:Q]]]
    & GmmDiagonal.get_covariance_matrix scale_two_diagonal
      <> diagonal_covariance scale_two_diagonal]%R.
Proof.
have sq : diagonal_covariance scale_two_diagonal = [:: [:: [:: 4%:Q]]]%R.
  by rewrite /diagonal_covariance /= /diag /= expr2 -natrM.
by split=> //; rewrite sq.
Qed.

Section Constructors.

Variable F : realFieldType.
Variable u : nat -> F.
Variable kaiming_bound : nat -> F.

Local Open Scope ring_scope.

Lemma full_init_ignores_init_mus pos k d num_feat (r : F) supplied :
  GmmFull.__init__ u kaiming_bound pos k d num_feat r (Some supplied)
  = GmmFull.__init__ u kaiming_bound pos k d num_feat r None.
Proof. by []. Qed.

Lemma diagonal_init_ignores_init_mus pos k d num_feat (r : F) supplied :
  GmmDiagonal.__init__ u kaiming_bound pos k d num_feat r (Some supplied)
  = GmmDiagonal.__init__ u kaiming_bound pos k d num_feat r None.
Proof. by []. Qed.

(** The entries that [torch.rand(k, d).uniform_(- r, r)] leaves. *)
Lemma uniform_entries pos pos' (r : F) (t t' : seq (seq F)) :
  (forall n, 0 <= u n < 1) ->
  uniform_ u pos t (- r) r = Ok (t', pos') ->
  forall i j, (i < size t')%N -> (j < size (nth [::] t' i))%N ->
    - r <= entry t' i j <= r.
Proof.
move=> draws; rewrite /uniform_; case: ifP => // le_r [<- _] i j.
rewrite size_mkseq => lt_i; rewrite /entry nth_mkseq // size_mkseq => lt_j.
rewrite nth_mkseq //.
have r_ge0 : 0 <= r by lra.
set x := u _; have /andP [x_ge0 x_lt1] : 0 <= x < 1 by exact: draws.
by apply/andP; split; nra.
Qed.

Lemma full_init_means_in_radius pos pos' k d num_feat (r : F) init_mus m :
  (forall n, 0 <= u n < 1) ->
  GmmFull.__init__ u kaiming_bound pos k d num_feat r init_mus = Ok (m, pos') ->
  forall i j, (i < size (GmmFull.mus m))%N -> (j < size (nth [::] (GmmFull.mus m) i))%N ->
    - r <= entry (GmmFull.mus m) i j <= r.
Proof.
move=> draws; rewrite /GmmFull.__init__ /=.
case E: (uniform_ _ _ _ _ _) => [[t p1]|] //=.
case: (Linear.__init__ _ _ _ _ _) => [[e p2]|] //= [<- _].
exact: uniform_entries E.
Qed.

Lemma diagonal_init_means_in_radius pos pos' k d num_feat (r : F) init_mus m :
  (forall n, 0 <= u n < 1) ->
  GmmDiagonal.__init__ u kaiming_bound pos k d num_feat r init_mus = Ok (m, pos') ->
  forall i j, (i < size (GmmDiagonal.mus m))%N ->
              (j < size (nth [::] (GmmDiagonal.mus m) i))%N ->
    - r <= entry (GmmDiagonal.mus m) i j <= r.
Proof.
move=> draws; rewrite /GmmDiagonal.__init__ /=.
case E: (uniform_ _ _ _ _ _) => [[t p1]|] //=.
case: (Linear.__init__ _ _ _ _ _) => [[e p2]|] //= [<- _].
exact: uniform_entries E.
Qed.

(** The factory on the families without a class. *)
Lemma get_model_not_implemented pos family k d radius :
  family <> FULL -> family <> DIAGONAL ->
  get_model u kaiming_bound pos family k d radius
  = Raise (NotImplementedError
             ("Mixture family " ++ value family ++ " not implemented yet")%string).
Proof. by case: family. Qed.

(** The factory with a radius that is a float: the radius reaches
    [torch.nn.Linear] as its number of input features. *)
Lemma get_model_float_radius pos family k d (x : F) :
  family = FULL \/ family = DIAGONAL ->
  get_model u kaiming_bound pos family k d (PyFloat x) = Raise TypeError.
Proof.
have le : - (1 : F) <= 1 by lra.
by case=> ->;
   rewrite /get_model /GmmFull.__init__ /GmmDiagonal.__init__ /= /uniform_ le.
Qed.

(** The factory with a radius that is a natural number [n]: the instance
    has [n] input features and the default initial radius. *)
Lemma get_model_full_int_radius pos k d (n : nat) :
  exists m pos',
    [/\ get_model u kaiming_bound pos FULL k d (PyInt (Posz n)) = Ok (IsFull m, pos'),
        MixtureModel.num_components (GmmFull.base m) = k,
        MixtureModel.num_dims (GmmFull.base m) = d,
        MixtureModel.init_radius (GmmFull.base m) = 1
      & Linear.in_features (GmmFull.embed m) = n].
Proof.
have le : - (1 : F) <= 1 by lra.
rewrite /get_model /GmmFull.__init__ /= /uniform_ le /=.
by eexists; eexists; split; first by reflexivity.
Qed.


End Constructors.

(** C4 fails on the code.  [get_model(MixtureFamily.FULL, 2, 3, 5)]
    returns a [GmmFull] with two components in three dimensions, with
    five input features and the initial radius 1: the radius 5 of the
    caller is not the initial radius of the instance. *)
Theorem get_model_radius_misplaced (F : realFieldType) (u kaiming_bound : nat -> F)
    (pos : nat) :
  exists m pos',
    [/\ get_model u kaiming_bound pos FULL 2 3 (PyInt 5) = Ok (IsFull m, pos'),
        Linear.in_features (GmmFull.embed m) = 5%N,
        MixtureModel.init_radius (GmmFull.base m) = 1%R
      & MixtureModel.init_radius (GmmFull.base m) <> pynum_val (PyInt 5)].
Proof.
have [m [pos' [eq_m _ _ radius feat]]] := get_model_full_int_radius u kaiming_bound pos 2 3 5.
exists m, pos'; split=> //; rewrite radius /=.
by apply/eqP; rewrite eq_sym -[1%R]/(1%:~R)%R eqr_int.
Qed.

(** C5 fails on the code.  Both constructors build the same instance with
    and without initial means from the caller; [GmmFull(1, 1, 1, 1.0,
    [[5.0]])] on a generator that draws zeros has the mean -1, not 5. *)
Theorem supplied_means_dropped :
  [/\ forall (F : realFieldType) (u kaiming_bound : nat -> F) pos k d num_feat r supplied,
        GmmFull.__init__ u kaiming_bound pos k d num_feat r (Some supplied)
        = GmmFull.__init__ u kaiming_bound pos k d num_feat r None,
      forall (F : realFieldType) (u kaiming_bound : nat -> F) pos k d num_feat r supplied,
        GmmDiagonal.__init__ u kaiming_bound pos k d num_feat r (Some supplied)
        = GmmDiagonal.__init__ u kaiming_bound pos k d num_feat r None
    & exists m pos',
        [/\ GmmFull.__init__ (fun=> 0 : rat) (fun=> 1 : rat) 0 1 1 (PyInt 1) 1
              (Some [:: [:: 5%:R]]) = Ok (m, pos'),
            GmmFull.mus m = [:: [:: - 1]]
          & GmmFull.mus m <> [:: [:: 5%:R]]]]%R.
Proof.
split=> //.
rewrite /GmmFull.__init__ /= /mkseq /= mul0r addr0.
eexists; eexists; split; first by reflexivity.
  by [].
by move=> [] /eqP.
Qed.


Section WarpLemmas.

Local Open Scope R_scope.

Lemma numpy_log_pos (x : R) : 0 < x -> numpy_log x = Some (ln x).
Proof. by rewrite /numpy_log; case: (Rlt_dec 0 x). Qed.

Lemma numpy_log_nonpos (x : R) : ~ 0 < x -> numpy_log x = None.
Proof. by rewrite /numpy_log; case: (Rlt_dec 0 x). Qed.

Lemma float_div_nonzero (a b : R) : b <> 0 -> float_div a b = Some (a / b).
Proof. by rewrite /float_div; case: (Req_EM_T b 0). Qed.


Lemma float_pow_pos (x a : R) : 0 < x -> float_pow x a = Some (Rpower x a).
Proof. by rewrite /float_pow; case: (Rlt_dec 0 x). Qed.

Lemma INR_ge2 (n : nat) : (2 <= n)%N -> 2 <= INR n.
Proof.
move=> /ssrnat.leP le_n; have := le_INR _ _ le_n.
by rewrite /=; Rlra.
Qed.

Lemma inv_len_bounds (n : nat) : (2 <= n)%N -> 0 < 1 / INR n < 1.
Proof.
move=> /INR_ge2 le_n.
have inv_gt0 : 0 < / INR n by apply: Rinv_0_lt_compat; Rlra.
have inv_lt1 : / INR n < 1.
  by rewrite -Rinv_1; apply: Rinv_lt_contravar; Rlra.
by rewrite /Rdiv Rmult_1_l.
Qed.

Lemma ln_neg (x : R) : 0 < x < 1 -> ln x < 0.
Proof. by case=> x_gt0 x_lt1; rewrite -ln_1; apply: ln_increasing. Qed.

Lemma sequence_nseq (A : Type) (n : nat) (a : A) :
  sequence (nseq n (Some a)) = Some (nseq n a).
Proof. by elim: n => [|n IH] //=; rewrite IH. Qed.

Lemma sequence_size (A : Type) (l : seq (option A)) (r : seq A) :
  sequence l = Some r -> size r = size l.
Proof.
elim: l r => [|[a|] l IH] r //=; first by case=> <-.
by case E: (sequence l) => [r'|] // [<-] /=; rewrite (IH r').
Qed.

End WarpLemmas.

Section WarpTheorems.

Local Open Scope R_scope.

(** C8. For [n >= 2] and a target strictly between 0 and 1, the warp of
    the uniform vector of length [n] is the vector of length [n] whose
    every entry is the target. *)
Theorem warp_uniform_is_target (n : nat) (t : R) :
  (2 <= n)%N -> 0 < t < 1 ->
  warp_probs (uniform_vector n) t = Ok (Some (nseq n t)).
Proof.
move=> le_n [t_gt0 t_lt1].
have [inv_gt0 inv_lt1] := inv_len_bounds le_n.
have ln_inv : ln (1 / INR n) <> 0.
  by have := @ln_neg (1 / INR n) (conj inv_gt0 inv_lt1); Rlra.
rewrite /warp_probs /uniform_vector size_nseq numpy_log_pos //.
case: n le_n inv_gt0 inv_lt1 ln_inv => [|n] // _ inv_gt0 inv_lt1 ln_inv.
rewrite /int_true_div /bind [INR 1]/= numpy_log_pos // float_div_nonzero //.
rewrite map_nseq float_pow_pos // sequence_nseq /Rpower.
have -> : ln t / ln (1 / INR n.+1) * ln (1 / INR n.+1) = ln t by Rfield.
by rewrite exp_ln.
Qed.

Lemma warp_uniform_is_target_witness :
  [/\ (2 <= 4)%N, 0 < 3 / 4 < 1
    & warp_probs (uniform_vector 4) (3 / 4) = Ok (Some (nseq 4 (3 / 4)))].
Proof.
have bounds : 0 < 3 / 4 < 1 by Rlra.
split=> //.
exact: (@warp_uniform_is_target 4 (3 / 4) isT bounds).
Defined.



End WarpTheorems.

Section LikelihoodLemmas.

Local Open Scope R_scope.

Lemma Rltb_pos (x : R) : 0 < x -> Rltb 0 x = true.
Proof. by rewrite /Rltb; case: (Rlt_dec 0 x). Qed.

Lemma RltbP (x y : R) : reflect (x < y) (Rltb x y).
Proof. by rewrite /Rltb; case: (Rlt_dec x y) => h; constructor. Qed.

Lemma Rleb_true (x y : R) : x <= y -> Rleb x y = true.
Proof. by rewrite /Rleb; case: (Rle_dec x y). Qed.

Lemma logsumexp_single (x : R) : logsumexp [:: x] = x.
Proof. by rewrite /logsumexp /= Rplus_0_r ln_exp. Qed.

Lemma log_softmax_single (x : R) : log_softmax [:: x] = [:: 0].
Proof. by rewrite /log_softmax /= logsumexp_single Rminus_diag. Qed.

(** With one component the mixture has the log density of the
    component. *)
Lemma mixture_single (l lp : R) :
  MixtureSameFamily.log_prob (Categorical.logits [:: l]) [:: lp] = lp.
Proof.
rewrite /MixtureSameFamily.log_prob /Categorical.logits !log_softmax_single /=.
by rewrite Rplus_0_r logsumexp_single.
Qed.

Lemma mean_single (x : R) : mean [:: x] = Some x.
Proof. by rewrite /mean /=; congr Some; Rfield. Qed.

Lemma ln_sqrt_half (x : R) : 0 < x -> ln (sqrt x) = ln x / 2.
Proof.
move=> x_gt0; have root_gt0 := sqrt_lt_R0 x x_gt0.
have -> : ln x = ln (sqrt x) + ln (sqrt x).
  by rewrite -ln_mult // sqrt_sqrt //; Rlra.
by Rfield.
Qed.

Lemma ln_sqrt_2PI : ln (sqrt (2 * PI)) = ln (2 * PI) / 2.
Proof. by apply: ln_sqrt_half; have := PI_RGT_0; Rlra. Qed.

(** The negative of [Normal.log_prob] is the closed form with the
    variance [scale ^ 2]. *)
Lemma normal_log_prob_closed (loc scale x : R) :
  0 < scale ->
  - Normal.log_prob loc scale x = gaussian_nll_1d loc (scale ^ 2) x.
Proof.
move=> s_gt0; have pi_gt0 := PI_RGT_0.
rewrite /Normal.log_prob /gaussian_nll_1d ln_sqrt_2PI.
rewrite (ln_mult (2 * PI) (scale ^ 2)); [Rlra|exact: pow_lt|].
rewrite ln_pow // [INR 2]/=.
by Rfield; Rlra.
Qed.

Lemma independent_log_prob_closed (loc scale x : seq R) :
  all (Rltb 0) scale ->
  - Normal.independent_log_prob loc scale x
  = gaussian_nll_diag loc [seq s ^ 2 | s <- scale] x.
Proof.
rewrite /Normal.independent_log_prob /gaussian_nll_diag.
elim: loc scale x => [|m loc IH] [|s scale] [|v x] //=; try by rewrite Ropp_0.
move=> /andP [/RltbP s_gt0 pos].
by rewrite Ropp_plus_distr normal_log_prob_closed // IH.
Qed.

(** C1 for [GmmDiagonal]: with one component, the loss of [forward] on
    one point is the closed form of the Gaussian with the means [mu] and
    the covariance [diag(sigma ** 2)] at the embedded point. *)
Lemma diagonal_forward_single (l : R) (mu sigma : seq R) (W : seq (seq R)) (x : seq R) :
  all (Rltb 0) sigma ->
  GmmDiagonal.forward (single_diagonal l mu sigma W) [:: x]
  = Ok (Some (gaussian_nll_diag mu [seq s ^ 2 | s <- sigma] (linear W x))).
Proof.
move=> pos; rewrite /GmmDiagonal.forward [LHS]/= andbT.
rewrite [all Normal.valid sigma]pos mixture_single.
by rewrite -independent_log_prob_closed //; congr (Ok (Some _)); Rfield.
Qed.

Lemma isclose_refl (atol a : R) : 0 <= atol -> isclose atol a a = true.
Proof.
move=> atol_ge0; rewrite /isclose Rleb_true // Rminus_diag Rabs_R0.
by have := Rabs_pos a; Rlra.
Qed.

Lemma cholesky_1d (s : R) : 0 < s -> cholesky [:: [:: s]] = Some [:: [:: sqrt s]].
Proof.
move=> s_gt0; rewrite /cholesky /= /cholesky_row /= /Rdot /= Rminus_0_r.
by case: (Rlt_dec 0 s).
Qed.

(** [GmmFull.forward] with one component in one dimension: the loss is
    the closed form of the Gaussian whose variance is the scale factor
    [s] itself. *)
Lemma full_forward_1d (l mu s w x : R) :
  0 < s ->
  GmmFull.forward (single_full_1d l mu s w) [:: [:: x]]
  = Ok (Some (gaussian_nll_1d mu s (x * w))).
Proof.
move=> s_gt0; have root_gt0 := sqrt_lt_R0 s s_gt0.
have pi_gt0 := PI_RGT_0.
have atol_ge0 : 0 <= / 1000000 by Rlra.
have two_pi_gt0 : 0 < 2 * PI by Rlra.
rewrite /GmmFull.forward [LHS]/= /MultivariateNormal.init_component.
rewrite /MultivariateNormal.symmetric_check [LHS]/= /Rentry [LHS]/= isclose_refl //.
rewrite cholesky_1d // [LHS]/= mixture_single.
congr (Ok (Some _)).
rewrite /MultivariateNormal.log_prob /gaussian_nll_1d /= /Rdot /Rentry /=.
have sq : sqrt s * sqrt s = s by rewrite sqrt_sqrt //; Rlra.
have mahalanobis a : a / sqrt s * (a / sqrt s) = a * a / s.
  by rewrite -[in RHS]sq; Rfield; Rlra.
rewrite ln_sqrt_half // (ln_mult (2 * PI) s) // mahalanobis.
by Rfield; Rlra.
Qed.

End LikelihoodLemmas.

Section ScaleFactorReadOut.

Variable F : realFieldType.
Local Open Scope ring_scope.

(** In one dimension [get_covariance_matrix] of [GmmFull] squares the
    scale factor. *)
Lemma full_read_out_1d (base : MixtureModel.t F) (embed : Linear.t F)
    (mus : seq (seq F)) (s : F) :
  GmmFull.get_covariance_matrix (GmmFull.Build base embed mus [:: [:: [:: s]]])
  = [:: [:: [:: s * s]]].
Proof.
by rewrite /GmmFull.get_covariance_matrix /= /dot /= big_cons big_nil addr0.
Qed.

End ScaleFactorReadOut.

Section FullLikelihood.

Local Open Scope R_scope.

(** C1 fails on the code for [GmmFull].  With one component in one
    dimension, mean 0, scale factor [[2]] and the identity embedding,
    the loss of [forward] at the point 0 is the negative log density of
    the Gaussian with variance 2; the covariance
    [scale_factor * scale_factor^T] is 4, and the two closed forms
    differ. *)
Theorem full_forward_scale_as_covariance :
  [/\ GmmFull.forward (single_full_1d 0 0 2 1) [:: [:: 0]]
      = Ok (Some (gaussian_nll_1d 0 2 0)),
      gaussian_nll_1d 0 2 0 <> gaussian_nll_1d 0 (2 * 2) 0
    & GmmFull.forward (single_full_1d 0 0 2 1) [:: [:: 0]]
      <> Ok (Some (gaussian_nll_1d 0 (2 * 2) 0))].
Proof.
have eq_loss : GmmFull.forward (single_full_1d 0 0 2 1) [:: [:: 0]]
               = Ok (Some (gaussian_nll_1d 0 2 0)).
  by rewrite full_forward_1d ?Rmult_0_l //; Rlra.
have ne_loss : gaussian_nll_1d 0 2 0 <> gaussian_nll_1d 0 (2 * 2) 0.
  rewrite /gaussian_nll_1d => eq_nll.
  have pi_gt0 := PI_RGT_0.
  have lt_ln : ln (2 * PI * 2) < ln (2 * PI * (2 * 2)).
    by apply: ln_increasing; Rlra.
  by move: eq_nll lt_ln; rewrite !Rminus_diag /= !Rmult_0_l; Rlra.
split=> //.
by rewrite eq_loss => -[].
Qed.

End FullLikelihood.

Section Examples.

Local Open Scope ring_scope.

(** The repair on [example_full]: -3 becomes 3, the vanishing diagonal
    entry becomes 1/2, the entry below the diagonal stays. *)
Example constrain_example_full :
  GmmFull.scale_tril (GmmFull.constrain_parameters (1 / 2) example_full)
  = [:: [:: [:: 3%:R; 0]; [:: 2%:R; 1 / 2]]].
Proof.
rewrite /= /on_diagonal /= /mkseq /= /entry /= /clamp_min_ /abs_.
have -> : Num.max `|Num.max `| - 3%:Q| (1 / 2)| (1 / 2) = 3%:R by apply/eqP.
by have -> : Num.max `|0 : rat| (1 / 2) = 1 / 2 by apply/eqP.
Qed.

Example constrain_example_diagonal :
  GmmDiagonal.sigmas_diag (GmmDiagonal.constrain_parameters (1 / 2) example_diagonal)
  = [:: [:: 3%:R; 1 / 2]].
Proof.
rewrite /= /clamp_min_ /abs_.
have -> : Num.max `| - 3%:Q| (1 / 2) = 3%:R by apply/eqP.
by have -> : Num.max `|0 : rat| (1 / 2) = 1 / 2 by apply/eqP.
Qed.

Lemma constrain_parameters_frame_witness :
  entry (nth [::] (GmmFull.scale_tril
                     (GmmFull.constrain_parameters (1 / 2) example_full)) 0) 1 0
  = entry (nth [::] (GmmFull.scale_tril example_full) 0) 1 0.
Proof.
have [full _] := @constrain_parameters_frame rat (1 / 2).
have [_ _ _ _ [_ _ off]] := full example_full.
exact: off.
Defined.


End Examples.

Section CholeskyExample.

Local Open Scope R_scope.

Lemma cholesky_row_pivot (n : nat) (done : seq (seq R)) (a : seq R) :
  let off := solve_lower done a [::] in
  let pivot := nth 0 a (size done) - Rdot off off in
  0 < pivot ->
  cholesky_row n done a = Some (off ++ sqrt pivot :: nseq (n - (size done).+1) 0).
Proof. by move=> off pivot pos; rewrite /cholesky_row; case: (Rlt_dec 0 _). Qed.

(** The factor of [[4, 2], [2, 5]] is [[2, 0], [1, 2]]. *)
Example cholesky_2x2 :
  cholesky [:: [:: 4; 2]; [:: 2; 5]] = Some [:: [:: 2; 0]; [:: 1; 2]].
Proof.
have root4 : sqrt 4 = 2.
  have -> : 4 = 2 * 2 by Rring.
  by rewrite sqrt_square //; Rlra.
have pivot0 : 0 < 4 - 0 by Rlra.
have pivot1 : 0 < 5 - (1 * 1 + 0) by Rlra.
have off1 : (2 - 0) / 2 = 1 by Rfield.
have four : 5 - (1 * 1 + 0) = 4 by Rring.
have four_gt0 : 0 < 4 by Rlra.
rewrite /cholesky /= cholesky_row_pivot /= /Rdot /= ?Rminus_0_r ?root4 //.
by rewrite cholesky_row_pivot /= /Rdot /= ?off1 ?four ?root4.
Qed.

End CholeskyExample.

(** * Further properties of GMM.py *)

Section SoftmaxLemmas.

Local Open Scope R_scope.

Lemma Rsum_map_div (A : Type) (f : A -> R) (s : R) (v : seq A) :
  Rsum [seq f x / s | x <- v] = Rsum [seq f x | x <- v] / s.
Proof.
elim: v => [|x v IH] /=; first by rewrite /Rdiv Rmult_0_l.
by rewrite IH /Rdiv Rmult_plus_distr_r.
Qed.

Lemma Rsum_exp_ge0 (v : seq R) : 0 <= Rsum [seq exp x | x <- v].
Proof.
elim: v => [|x v IH] /=; first by Rlra.
by have := exp_pos x; Rlra.
Qed.

Lemma Rsum_exp_gt0 (v : seq R) : (0 < size v)%N -> 0 < Rsum [seq exp x | x <- v].
Proof.
case: v => [|x v] // _ /=.
by have := exp_pos x; have := Rsum_exp_ge0 v; Rlra.
Qed.

Lemma exp_le_Rsum (v : seq R) (i : nat) :
  (i < size v)%N -> exp (nth 0 v i) <= Rsum [seq exp x | x <- v].
Proof.
elim: v i => [|x v IH] [|i] //= lt_i.
  by have := Rsum_exp_ge0 v; Rlra.
by have := IH i lt_i; have := exp_pos x; Rlra.
Qed.

Lemma Rsum_nseq (n : nat) (a : R) : Rsum (nseq n a) = INR n * a.
Proof.
elim: n => [|n IH]; first by rewrite /= Rmult_0_l.
by rewrite [nseq _ _]/= [Rsum _]/= IH S_INR; Rring.
Qed.

Lemma softmax_nth (v : seq R) (i : nat) :
  (i < size v)%N ->
  nth 0 (softmax v) i = exp (nth 0 v i) / Rsum [seq exp y | y <- v].
Proof. by move=> lt_i; rewrite /softmax (nth_map 0). Qed.

Lemma softmax_sum (v : seq R) : (0 < size v)%N -> Rsum (softmax v) = 1.
Proof.
move=> /Rsum_exp_gt0 sum_gt0; rewrite /softmax Rsum_map_div.
by Rfield; Rlra.
Qed.

End SoftmaxLemmas.

Section MixingProbabilities.

Local Open Scope R_scope.

(** X1. With at least one component, [get_probs] returns one probability
    per logit, each in (0, 1], and they sum to one. *)
Theorem get_probs_simplex (self : MixtureModel.t R) :
  (0 < size (MixtureModel.logits self))%N ->
  [/\ size (get_probs self) = size (MixtureModel.logits self),
      forall i, (i < size (MixtureModel.logits self))%N ->
        0 < nth 0 (get_probs self) i <= 1
    & Rsum (get_probs self) = 1].
Proof.
move=> nonempty; rewrite /get_probs /logits_to_probs.
have sum_gt0 := Rsum_exp_gt0 nonempty.
split; [by rewrite /softmax size_map | | exact: softmax_sum].
move=> i lt_i; rewrite softmax_nth //.
have num_gt0 := exp_pos (nth 0 (MixtureModel.logits self) i).
have num_le := exp_le_Rsum lt_i.
split; first exact: Rdiv_lt_0_compat.
set s := Rsum _ in sum_gt0 num_le *.
have -> : 1 = s / s by Rfield; Rlra.
apply: Rmult_le_compat_r => //.
by apply: Rlt_le; apply: Rinv_0_lt_compat.
Qed.

Lemma get_probs_simplex_witness :
  [/\ (0 < size (MixtureModel.logits (MixtureModel.Build 2 1 1 None [:: 0; 1])))%N,
      0 < nth 0 (get_probs (MixtureModel.Build 2 1 1 None [:: 0; 1])) 1 <= 1
    & Rsum (get_probs (MixtureModel.Build 2 1 1 None [:: 0; 1])) = 1].
Proof.
have [_ bounds total] :=
  @get_probs_simplex (MixtureModel.Build 2 1 1 None [:: 0; 1]) isT.
by split=> //; exact: bounds.
Defined.

End MixingProbabilities.

Section ShapeLemmas.

Variable F : realFieldType.
Local Open Scope ring_scope.

Implicit Types (A B : seq (seq F)) (v : seq F).

Lemma mkseq_shape (rows cols : nat) (f : nat -> nat -> F) :
  has_shape rows cols (mkseq (fun i => mkseq (f i) cols) rows).
Proof.
apply/has_shapeP; split; first by rewrite size_mkseq.
by move=> i lt_i; rewrite nth_mkseq // size_mkseq.
Qed.

Lemma rand_shape (u : nat -> F) (pos rows cols : nat) :
  has_shape rows cols (rand u pos rows cols).1.
Proof. exact: mkseq_shape. Qed.

Lemma tril_shape (rows cols : nat) A : has_shape rows cols A -> has_shape rows cols (tril A).
Proof.
move=> /has_shapeP [sA rowsA]; apply/has_shapeP.
split; first by rewrite /tril size_mkseq.
by move=> i lt_i; rewrite /tril nth_mkseq ?sA // size_mkseq rowsA.
Qed.

Lemma entry_tril A (i j : nat) :
  entry (tril A) i j = if (j <= i)%N then entry A i j else 0.
Proof.
case: (ltnP i (size A)) => lt_i; last first.
  by rewrite /entry !(@nth_default _ [::]) ?nth_nil ?if_same // /tril size_mkseq.
case: (ltnP j (size (nth [::] A i))) => lt_j.
  by rewrite {1}/entry /tril !nth_mkseq.
rewrite {1}/entry /tril nth_mkseq // nth_default ?size_mkseq //.
by rewrite /entry [nth 0 _ j]nth_default // if_same.
Qed.

Lemma tril_lower_triangular A : lower_triangular (tril A).
Proof.
apply/allP => i _; apply/allP => j _.
by rewrite entry_tril; case: leqP => //= _; rewrite eqxx.
Qed.

Lemma matmul_shape (d : nat) A B :
  has_shape d d A -> has_shape d d B -> has_shape d d (matmul A B).
Proof.
move=> /has_shapeP [sA _] shB; have /has_shapeP [sT _] := transpose_shape shB.
apply/has_shapeP; split; first by rewrite /matmul size_map.
by move=> i lt_i; rewrite /matmul (nth_map [::]) ?sA // size_map.
Qed.

Lemma diag_shape v : has_shape (size v) (size v) (diag v).
Proof. exact: mkseq_shape. Qed.

Lemma tensor_add_shape (rows cols : nat) A B :
  has_shape rows cols A -> has_shape rows cols B ->
  has_shape rows cols (tensor_add A B).
Proof.
move=> /has_shapeP [sA rowsA] /has_shapeP [sB rowsB]; apply/has_shapeP.
have sz : size (zip A B) = rows by rewrite size_zip sA sB minnn.
split; first by rewrite /tensor_add size_map.
move=> i lt_i; rewrite /tensor_add (nth_map ([::], [::])) ?sz //.
by rewrite size_map size_zip nth_zip ?sA ?sB //= rowsA // rowsB // minnn.
Qed.

Lemma entry_tensor_add (rows cols : nat) A B (i j : nat) :
  has_shape rows cols A -> has_shape rows cols B ->
  (i < rows)%N -> (j < cols)%N ->
  entry (tensor_add A B) i j = entry A i j + entry B i j.
Proof.
move=> /has_shapeP [sA rowsA] /has_shapeP [sB rowsB] lt_i lt_j.
have sz : size (zip A B) = rows by rewrite size_zip sA sB minnn.
rewrite /entry /tensor_add (nth_map ([::], [::])) ?sz //.
rewrite nth_zip ?sA ?sB //=.
rewrite (nth_map (0, 0)) ?size_zip ?rowsA ?rowsB ?minnn //.
by rewrite nth_zip ?rowsA ?rowsB.
Qed.

Lemma mx_of_tensor_add (d : nat) A B :
  has_shape d d A -> has_shape d d B ->
  mx_of d (tensor_add A B) = mx_of d A + mx_of d B.
Proof.
move=> shA shB; apply/matrixP => i j.
by rewrite !mxE (entry_tensor_add shA shB).
Qed.

Lemma mx_of_identity (d : nat) : mx_of d (diag (ones F d)) = 1%:M.
Proof.
rewrite mx_of_diag ?size_nseq //.
have -> : \row_(j < d) nth 0 (ones F d) j = const_mx 1.
  by apply/rowP => j; rewrite !mxE nth_nseq ltn_ord.
by rewrite diag_const_mx.
Qed.

End ShapeLemmas.

Section ConstructorLemmas.

Variable F : realFieldType.
Variable u : nat -> F.
Variable kaiming_bound : nat -> F.

Local Open Scope ring_scope.

Lemma opp_le_self (r : F) : (- r <= r) = (0 <= r).
Proof. by apply/idP/idP => h; lra. Qed.

Lemma uniform_shape (rows cols : nat) pos pos' (t t' : seq (seq F)) (lo hi : F) :
  has_shape rows cols t -> uniform_ u pos t lo hi = Ok (t', pos') ->
  has_shape rows cols t'.
Proof.
move=> /has_shapeP [st rowst]; rewrite /uniform_; case: ifP => // _ [<- _].
apply/has_shapeP; split; first by rewrite size_mkseq.
by move=> i lt_i; rewrite nth_mkseq ?st // size_mkseq rowst.
Qed.

Lemma linear_init_inversion pos pos' (num_feat : pynum F) (d : nat) (e : Linear.t F) :
  Linear.__init__ u kaiming_bound pos num_feat d = Ok (e, pos') ->
  exists n, [/\ num_feat = PyInt (Posz n), Linear.in_features e = n,
                Linear.out_features e = d
              & has_shape d n (Linear.weight e)].
Proof.
case: num_feat => [[n|n]|x] //= [<- _]; exists n; split=> //=.
exact: mkseq_shape.
Qed.

(** What a successful [GmmFull.__init__] has built. *)
Lemma full_init_inversion pos pos' k d num_feat (r : F) init_mus m :
  GmmFull.__init__ u kaiming_bound pos k d num_feat r init_mus = Ok (m, pos') ->
  exists n T,
    [/\ 0 <= r /\ num_feat = PyInt (Posz n),
        GmmFull.base m = MixtureModel.__init__ k d r None,
        Linear.in_features (GmmFull.embed m) = n
        /\ has_shape d n (Linear.weight (GmmFull.embed m)),
        has_shape k d (GmmFull.mus m)
      & has_shape d d T
        /\ GmmFull.scale_tril m
           = nseq k (tensor_add (matmul (tril T) (transpose (tril T)))
                                (diag (ones F d)))].
Proof.
rewrite /GmmFull.__init__ /=.
case E: (uniform_ _ _ _ _ _) => [[t p1]|] //=.
case L: (Linear.__init__ _ _ _ _ _) => [[e p2]|] //= [<- _].
have [n [nf feat _ shW]] := linear_init_inversion L.
exists n, (rand u p2 d d).1; split=> //=.
- by split=> //; move: E; rewrite /uniform_ opp_le_self; case: ifP.
- exact: uniform_shape (rand_shape u pos k d) E.
- by split=> //; exact: rand_shape.
Qed.

Lemma diagonal_init_inversion pos pos' k d num_feat (r : F) init_mus m :
  GmmDiagonal.__init__ u kaiming_bound pos k d num_feat r init_mus = Ok (m, pos') ->
  exists n p2,
    [/\ 0 <= r /\ num_feat = PyInt (Posz n),
        GmmDiagonal.base m = MixtureModel.__init__ k d r None,
        Linear.in_features (GmmDiagonal.embed m) = n
        /\ has_shape d n (Linear.weight (GmmDiagonal.embed m)),
        has_shape k d (GmmDiagonal.mus m)
      & GmmDiagonal.sigmas_diag m = (rand u p2 k d).1].
Proof.
rewrite /GmmDiagonal.__init__ /=.
case E: (uniform_ _ _ _ _ _) => [[t p1]|] //=.
case L: (Linear.__init__ _ _ _ _ _) => [[e p2]|] //= [<- _].
have [n [nf feat _ shW]] := linear_init_inversion L.
exists n, p2; split=> //=.
- by split=> //; move: E; rewrite /uniform_ opp_le_self; case: ifP.
- exact: uniform_shape (rand_shape u pos k d) E.
Qed.

(** Both constructors succeed on a natural number of features and a
    non-negative radius. *)
Lemma full_init_succeeds pos k d (n : nat) (r : F) init_mus :
  0 <= r ->
  exists m pos',
    GmmFull.__init__ u kaiming_bound pos k d (PyInt (Posz n)) r init_mus = Ok (m, pos').
Proof.
move=> r_ge0; rewrite /GmmFull.__init__ /= /uniform_ opp_le_self r_ge0 /=.
by eexists; eexists; reflexivity.
Qed.

Lemma diagonal_init_succeeds pos k d (n : nat) (r : F) init_mus :
  0 <= r ->
  exists m pos',
    GmmDiagonal.__init__ u kaiming_bound pos k d (PyInt (Posz n)) r init_mus
    = Ok (m, pos').
Proof.
move=> r_ge0; rewrite /GmmDiagonal.__init__ /= /uniform_ opp_le_self r_ge0 /=.
by eexists; eexists; reflexivity.
Qed.

End ConstructorLemmas.

Section ConstructorTheorems.

Variable F : realFieldType.
Variable u : nat -> F.
Variable kaiming_bound : nat -> F.

Local Open Scope ring_scope.


(** X3. An instance that a constructor returns has the numbers of
    components and dimensions and the radius it was asked for, no stored
    initial means, logits that are all zero, and tensors of the shapes
    [num_components x num_dims] (means, [sigmas_diag]),
    [num_dims x num_feat] (embedding) and
    [num_components x num_dims x num_dims] ([scale_tril]). *)
Theorem constructed_well_shaped pos pos' k d num_feat (r : F) init_mus :
  (forall m,
     GmmFull.__init__ u kaiming_bound pos k d num_feat r init_mus = Ok (m, pos') ->
     [/\ GmmFull.well_shaped m,
         GmmFull.base m = MixtureModel.Build k d r None (nseq k 0)
       & num_feat = PyInt (Posz (Linear.in_features (GmmFull.embed m)))])
  /\ (forall m,
        GmmDiagonal.__init__ u kaiming_bound pos k d num_feat r init_mus = Ok (m, pos') ->
        [/\ GmmDiagonal.well_shaped m,
            GmmDiagonal.base m = MixtureModel.Build k d r None (nseq k 0)
          & num_feat = PyInt (Posz (Linear.in_features (GmmDiagonal.embed m)))]).
Proof.
split=> m.
- move=> /full_init_inversion [n [T [[_ nf] base [feat shW] shM [shT scale]]]].
  split; [|by rewrite base|by rewrite feat].
  rewrite /GmmFull.well_shaped base /= size_nseq eqxx shM feat shW scale size_nseq eqxx /=.
  apply/allP => P /nseqP [-> _].
  apply: tensor_add_shape; last by rewrite -{1 2}(size_nseq d (1 : F)); exact: diag_shape.
  by apply: matmul_shape; rewrite ?transpose_shape // tril_shape.
- move=> /diagonal_init_inversion [n [p2 [[_ nf] base [feat shW] shM sig]]].
  split; [|by rewrite base|by rewrite feat].
  rewrite /GmmDiagonal.well_shaped base /= size_nseq eqxx shM feat shW sig /=.
  exact: rand_shape.
Qed.

End ConstructorTheorems.


Lemma constructed_well_shaped_witness :
  exists m pos',
    GmmFull.__init__ (fun=> 0 : rat) (fun=> 1 : rat) 0 2 1 (PyInt 3) 1%R None
    = Ok (m, pos')
    /\ GmmFull.well_shaped m.
Proof.
have [m [pos' eq_m]] :=
  @full_init_succeeds rat (fun=> 0%R) (fun=> 1%R) 0 2 1 3 1%R None isT.
exists m, pos'; split=> //.
have [full _] :=
  @constructed_well_shaped rat (fun=> 0%R) (fun=> 1%R) 0 pos' 2 1 (PyInt 3) 1%R None.
by have [] := full m eq_m.
Defined.

Section FreshInstances.

Variable F : realFieldType.
Variable u : nat -> F.
Variable kaiming_bound : nat -> F.

Local Open Scope ring_scope.

Implicit Types (A : seq (seq F)) (epsilon : F).

Lemma repair_fixed epsilon (x : F) :
  (repair epsilon x == x) = (Num.max 0 epsilon <= x).
Proof.
rewrite /repair /= /clamp_min_ /abs_ ge_max.
apply/eqP/andP => [<-|[x_ge0 le_x]].
  by rewrite !le_max normr_ge0 lexx orbT.
by rewrite ger0_norm //; apply/max_idPl.
Qed.

Lemma on_diagonal_fixed (f : F -> F) A :
  (on_diagonal f A = A)
  <-> (forall i, (i < size A)%N -> (i < size (nth [::] A i))%N ->
         f (entry A i i) = entry A i i).
Proof.
split=> [fixed i lt_i lt_ii|fixed].
  by rewrite -{2}fixed entry_on_diagonal // eqxx.
apply: (@eq_from_nth _ [::]); first by rewrite size_on_diagonal.
move=> i; rewrite size_on_diagonal => lt_i.
apply: (@eq_from_nth _ 0); first by rewrite size_row_on_diagonal.
move=> j; rewrite size_row_on_diagonal => lt_j.
rewrite -!/(entry _ i j) entry_on_diagonal //.
by case: eqP lt_j => // <- lt_ii; rewrite fixed.
Qed.

Lemma map_fixed (T : Type) (x0 : T) (f : T -> T) (s : seq T) :
  ([seq f x | x <- s] = s) <-> (forall i, (i < size s)%N -> f (nth x0 s i) = nth x0 s i).
Proof.
split=> [fixed i lt_i|fixed].
  by rewrite -{2}fixed (nth_map x0).
apply: (@eq_from_nth _ x0); first by rewrite size_map.
by move=> i; rewrite size_map => lt_i; rewrite (nth_map x0) // fixed.
Qed.

(** X4. [constrain_parameters(epsilon)] leaves an instance as it is
    exactly when every entry it looks at (the diagonal entries of every
    scale factor of [GmmFull], the entries of [sigmas_diag] of
    [GmmDiagonal]) is at least [max(0, epsilon)]. *)
Theorem constrain_parameters_fixed_points epsilon :
  (forall self : GmmFull.t F,
     GmmFull.constrain_parameters epsilon self = self
     <-> (forall c i,
            (c < size (GmmFull.scale_tril self))%N ->
            (i < size (nth [::] (GmmFull.scale_tril self) c))%N ->
            (i < size (nth [::] (nth [::] (GmmFull.scale_tril self) c) i))%N ->
            Num.max 0 epsilon <= entry (nth [::] (GmmFull.scale_tril self) c) i i))
  /\ (forall self : GmmDiagonal.t F,
        GmmDiagonal.constrain_parameters epsilon self = self
        <-> (forall c i,
               (c < size (GmmDiagonal.sigmas_diag self))%N ->
               (i < size (nth [::] (GmmDiagonal.sigmas_diag self) c))%N ->
               Num.max 0 epsilon <= entry (GmmDiagonal.sigmas_diag self) c i)).
Proof.
split=> self.
- have -> : (GmmFull.constrain_parameters epsilon self = self)
            <-> (GmmFull.scale_tril (GmmFull.constrain_parameters epsilon self)
                 = GmmFull.scale_tril self).
    case: self => b e m S; rewrite /GmmFull.constrain_parameters /=.
    by split=> [[]|->].
  rewrite full_repair (map_fixed [::]); split=> fixed c.
    move=> i lt_c lt_i lt_ii; rewrite -repair_fixed; apply/eqP.
    by move/on_diagonal_fixed: (fixed c lt_c); apply.
  move=> lt_c; apply/on_diagonal_fixed => i lt_i lt_ii.
  by apply/eqP; rewrite repair_fixed fixed.
- have -> : (GmmDiagonal.constrain_parameters epsilon self = self)
            <-> (GmmDiagonal.sigmas_diag (GmmDiagonal.constrain_parameters epsilon self)
                 = GmmDiagonal.sigmas_diag self).
    case: self => b e m S; rewrite /GmmDiagonal.constrain_parameters /=.
    by split=> [[]|->].
  rewrite diagonal_repair (map_fixed [::]); split=> fixed c.
    move=> i lt_c lt_i; rewrite -repair_fixed; apply/eqP.
    by move/(map_fixed 0): (fixed c lt_c); apply.
  move=> lt_c; apply/(map_fixed 0) => i lt_i.
  by apply/eqP; rewrite repair_fixed fixed.
Qed.

End FreshInstances.

Lemma constrain_parameters_fixed_points_witness :
  GmmDiagonal.constrain_parameters (1 / 2)%R scale_two_diagonal = scale_two_diagonal.
Proof.
have [_ diagonal] := @constrain_parameters_fixed_points rat (1 / 2)%R.
apply/diagonal => c i.
by case: c => [|c] //; case: i => [|i].
Defined.

Section FreshScaleFactors.

Variable F : realFieldType.
Variable u : nat -> F.
Variable kaiming_bound : nat -> F.

Local Open Scope ring_scope.

(** The matrix that [GmmFull.__init__] builds from a draw [T]. *)
Lemma initial_scale_matrix (d : nat) (T : seq (seq F)) :
  has_shape d d T ->
  let P := tensor_add (matmul (tril T) (transpose (tril T))) (diag (ones F d)) in
  has_shape d d P
  /\ mx_of d P = mx_of d (tril T) *m (mx_of d (tril T))^T + 1%:M.
Proof.
move=> shT P.
have shL := tril_shape shT.
have shG : has_shape d d (matmul (tril T) (transpose (tril T))).
  by apply: matmul_shape; rewrite ?transpose_shape.
have shI : has_shape d d (diag (ones F d)).
  by rewrite -{1 2}(size_nseq d (1 : F)); exact: diag_shape.
split; first exact: tensor_add_shape.
by rewrite /P mx_of_tensor_add // mx_of_covariance // mx_of_identity.
Qed.

Lemma gram_diagonal_ge0 (d : nat) (L : 'M[F]_d) (i : 'I_d) : 0 <= (L *m L^T) i i.
Proof. by rewrite mxE; apply: sumr_ge0 => k _; rewrite mxE -expr2 sqr_ge0. Qed.

(** X5. The scale factors of a new [GmmFull]: all components hold the
    same matrix; it is symmetric, its quadratic form is at least the
    squared length of the vector (so it is positive definite), and its
    diagonal entries are at least one, whatever the generator drew. *)
Theorem fresh_scale_factors pos pos' k d num_feat (r : F) init_mus m (c : nat) :
  GmmFull.__init__ u kaiming_bound pos k d num_feat r init_mus = Ok (m, pos') ->
  (c < k)%N ->
  let P := nth [::] (GmmFull.scale_tril m) c in
  [/\ P = nth [::] (GmmFull.scale_tril m) 0,
      symmetric (mx_of d P),
      forall x : 'rV[F]_d, (x *m x^T) 0 0 <= (x *m mx_of d P *m x^T) 0 0
    & forall i, (i < d)%N -> 1 <= entry P i i].
Proof.
move=> /full_init_inversion [n [T [_ _ _ _ [shT scale]]]] lt_c P.
have k_gt0 : (0 < k)%N by exact: leq_ltn_trans lt_c.
have [shP mxP] := initial_scale_matrix shT.
have eqP : P = tensor_add (matmul (tril T) (transpose (tril T))) (diag (ones F d)).
  by rewrite /P scale nth_nseq lt_c.
split.
- by rewrite eqP scale nth_nseq k_gt0.
- rewrite eqP mxP /symmetric raddfD /= tr_scalar_mx.
  by congr (_ + _); exact: gram_symmetric.
- move=> x; rewrite eqP mxP mulmxDr mulmxDl mulmx1 [leRHS]mxE lerDr.
  exact: gram_positive_semidefinite.
- move=> i lt_i; have -> : entry P i i = mx_of d P (Ordinal lt_i) (Ordinal lt_i).
    by rewrite mxE.
  rewrite eqP mxP mxE [X in _ + X]mxE eqxx mulr1n lerDr.
  exact: gram_diagonal_ge0.
Qed.

(** X6. A new [GmmFull] is already repaired: [constrain_parameters] with
    an [epsilon] of at most one, the default among them, returns it
    unchanged. *)
Theorem fresh_full_is_repaired pos pos' k d num_feat (r : F) init_mus m epsilon :
  GmmFull.__init__ u kaiming_bound pos k d num_feat r init_mus = Ok (m, pos') ->
  epsilon <= 1 ->
  GmmFull.constrain_parameters epsilon m = m.
Proof.
move=> built le_eps.
have /full_init_inversion [n [T [_ _ _ _ [shT scale]]]] := built.
have [shP mxP] := initial_scale_matrix shT.
set P := tensor_add _ _ in scale shP mxP.
have fixed : on_diagonal (repair epsilon) P = P.
  apply/on_diagonal_fixed => i; move/has_shapeP: (shP) => [-> _] lt_i _.
  apply/eqP; rewrite repair_fixed.
  have -> : entry P i i = mx_of d P (Ordinal lt_i) (Ordinal lt_i) by rewrite mxE.
  rewrite mxP mxE [X in _ + X]mxE eqxx mulr1n ge_max.
  have diag_ge0 := gram_diagonal_ge0 (mx_of d (tril T)) (Ordinal lt_i).
  by apply/andP; split; lra.
case: m built scale => b e mus S _ /= ->.
rewrite /GmmFull.constrain_parameters /=; congr GmmFull.Build.
rewrite map_nseq; congr nseq.
by rewrite on_diagonal_comp.
Qed.

(** X7. The ranges of the parameters a constructor draws, for a
    generator whose draws lie in [0, 1): every mean lies in
    [- init_radius, init_radius], and every entry of [sigmas_diag] of a
    new [GmmDiagonal] lies in [0, 1). *)
Theorem constructed_parameter_ranges pos pos' k d num_feat (r : F) init_mus :
  (forall n, 0 <= u n < 1) ->
  (forall m i j,
     GmmFull.__init__ u kaiming_bound pos k d num_feat r init_mus = Ok (m, pos') ->
     (i < k)%N -> (j < d)%N -> - r <= entry (GmmFull.mus m) i j <= r)
  /\ (forall m i j,
        GmmDiagonal.__init__ u kaiming_bound pos k d num_feat r init_mus = Ok (m, pos') ->
        (i < k)%N -> (j < d)%N ->
        - r <= entry (GmmDiagonal.mus m) i j <= r
        /\ 0 <= entry (GmmDiagonal.sigmas_diag m) i j < 1).
Proof.
move=> draws; split=> m i j built lt_i lt_j.
- have /full_init_inversion [n [T [_ _ _ /has_shapeP [sM rowsM] _]]] := built.
  by apply: (full_init_means_in_radius draws built); rewrite ?sM ?rowsM.
- have /diagonal_init_inversion [n [p2 [_ _ _ /has_shapeP [sM rowsM] sig]]] := built.
  split.
    by apply: (diagonal_init_means_in_radius draws built); rewrite ?sM ?rowsM.
  by rewrite sig /entry /rand /= !nth_mkseq.
Qed.

End FreshScaleFactors.

Section FreshWitnesses.

Local Open Scope ring_scope.

Lemma fresh_scale_factors_witness :
  exists m pos',
    [/\ GmmFull.__init__ (fun=> 0 : rat) (fun=> 1 : rat) 0 2 1 (PyInt 3) 1 None
        = Ok (m, pos'),
        (0 < 2)%N
      & 1 <= entry (nth [::] (GmmFull.scale_tril m) 0) 0 0].
Proof.
have [m [pos' built]] :=
  @full_init_succeeds rat (fun=> 0) (fun=> 1) 0 2 1 3 1 None isT.
exists m, pos'; split=> //.
have [_ _ _ diag_ge1] := fresh_scale_factors built (isT : (0 < 2)%N).
exact: diag_ge1.
Defined.

Lemma fresh_full_is_repaired_witness :
  exists m pos',
    [/\ GmmFull.__init__ (fun=> 0 : rat) (fun=> 1 : rat) 0 2 1 (PyInt 3) 1 None
        = Ok (m, pos'),
        1 / 2 <= 1 :> rat
      & GmmFull.constrain_parameters (1 / 2) m = m].
Proof.
have [m [pos' built]] :=
  @full_init_succeeds rat (fun=> 0) (fun=> 1) 0 2 1 3 1 None isT.
exists m, pos'; split=> //.
exact: (fresh_full_is_repaired built).
Defined.

Lemma constructed_parameter_ranges_witness :
  exists m pos',
    [/\ forall n : nat, 0 <= (fun=> 0 : rat) n < 1,
        GmmDiagonal.__init__ (fun=> 0 : rat) (fun=> 1 : rat) 0 2 1 (PyInt 3) 1 None
        = Ok (m, pos')
      & - 1 <= entry (GmmDiagonal.mus m) 0 0 <= 1
        /\ 0 <= entry (GmmDiagonal.sigmas_diag m) 0 0 < 1].
Proof.
have draws : forall n : nat, 0 <= (fun=> 0 : rat) n < 1 by [].
have [m [pos' built]] :=
  @diagonal_init_succeeds rat (fun=> 0) (fun=> 1) 0 2 1 3 1 None isT.
exists m, pos'; split=> //.
have [_ diagonal] :=
  @constructed_parameter_ranges rat (fun=> 0) (fun=> 1) 0 pos' 2 1 (PyInt 3) 1 None draws.
exact: diagonal.
Defined.

End FreshWitnesses.

Section FreshProbabilities.

Local Open Scope R_scope.

Lemma softmax_nseq (k : nat) (c : R) :
  (0 < k)%N -> softmax (nseq k c) = nseq k (1 / INR k).
Proof.
move=> k_gt0; rewrite /softmax !map_nseq Rsum_nseq.
have k_pos : 0 < INR k by apply: lt_0_INR; apply/ssrnat.ltP.
have e_pos := exp_pos c.
by congr nseq; Rfield; split; Rlra.
Qed.

(** X8. A new instance of either class mixes its components uniformly:
    [get_probs] is [1 / num_components] for every component. *)
Theorem fresh_probs_uniform (u kaiming_bound : nat -> R) pos pos' k d num_feat
    (r : R) init_mus :
  (0 < k)%N ->
  (forall m,
     GmmFull.__init__ u kaiming_bound pos k d num_feat r init_mus = Ok (m, pos') ->
     get_probs (GmmFull.base m) = nseq k (1 / INR k))
  /\ (forall m,
        GmmDiagonal.__init__ u kaiming_bound pos k d num_feat r init_mus = Ok (m, pos') ->
        get_probs (GmmDiagonal.base m) = nseq k (1 / INR k)).
Proof.
move=> k_gt0; split=> m.
  move=> /full_init_inversion [n [T [_ -> _ _ _]]].
  exact: softmax_nseq.
move=> /diagonal_init_inversion [n [p2 [_ -> _ _ _]]].
exact: softmax_nseq.
Qed.

Lemma zero_le_one_R : (0 <= 1 :> R)%R.
Proof. exact: ler01. Qed.

Lemma fresh_probs_uniform_witness :
  exists m pos',
    [/\ (0 < 2)%N,
        GmmFull.__init__ (fun=> 0) (fun=> 1) 0 2 1 (PyInt 3) 1 None = Ok (m, pos')
      & get_probs (GmmFull.base m) = nseq 2 (1 / INR 2)].
Proof.
have [m [pos' built]] :=
  @full_init_succeeds R (fun=> 0) (fun=> 1) 0 2 1 3 1 None zero_le_one_R.
exists m, pos'; split=> //.
have [full _] :=
  @fresh_probs_uniform (fun=> 0) (fun=> 1) 0 pos' 2 1 (PyInt 3) 1 None isT.
exact: full.
Defined.

End FreshProbabilities.

Section MixtureLikelihood.

Local Open Scope R_scope.

Lemma exp_normal_log_prob (mu sigma x : R) :
  0 < sigma -> exp (Normal.log_prob mu sigma x) = normal_density mu sigma x.
Proof.
move=> s_gt0; have pi_gt0 := PI_RGT_0.
have root_gt0 : 0 < sqrt (2 * PI) by apply: sqrt_lt_R0; Rlra.
rewrite /Normal.log_prob /normal_density.
have -> : - (x - mu) ^ 2 / (2 * sigma ^ 2) - ln sigma - ln (sqrt (2 * PI))
          = - ((x - mu) ^ 2 / (2 * sigma ^ 2)) + - (ln sigma + ln (sqrt (2 * PI))).
  by rewrite /Rdiv; Rring.
have prod_gt0 : 0 < sigma * sqrt (2 * PI) by exact: Rmult_lt_0_compat.
have inv : exp (- (ln sigma + ln (sqrt (2 * PI)))) = / (sigma * sqrt (2 * PI)).
  by rewrite exp_Ropp -ln_mult // exp_ln.
by rewrite exp_plus inv Rmult_comm.
Qed.

Lemma exp_independent_log_prob (mu sigma x : seq R) :
  all Normal.valid sigma ->
  exp (Normal.independent_log_prob mu sigma x) = normal_density_diag mu sigma x.
Proof.
rewrite /Normal.independent_log_prob /normal_density_diag.
elim: mu sigma x => [|m mu IH] [|s sigma] [|v x] //=; try by rewrite exp_0.
move=> /andP [/RltbP s_gt0 valid].
by rewrite exp_plus exp_normal_log_prob // IH.
Qed.

Lemma zip_map_right (A B C : Type) (f : B -> C) (a : seq A) (b : seq B) :
  zip a [seq f y | y <- b] = [seq (p.1, f p.2) | p <- zip a b].
Proof. by elim: a b => [|x a IH] [|y b] //=; rewrite IH. Qed.

Lemma zip_map_left (A B C : Type) (f : A -> C) (a : seq A) (b : seq B) :
  zip [seq f x | x <- a] b = [seq (f p.1, p.2) | p <- zip a b].
Proof. by elim: a b => [|x a IH] [|y b] //=; rewrite IH. Qed.

Lemma exp_logsumexp (v : seq R) :
  (0 < size v)%N -> exp (logsumexp v) = Rsum [seq exp x | x <- v].
Proof. by move=> /Rsum_exp_gt0 sum_gt0; rewrite /logsumexp exp_ln. Qed.

Lemma exp_log_softmax (v : seq R) :
  (0 < size v)%N -> [seq exp x | x <- log_softmax v] = softmax v.
Proof.
move=> nonempty; rewrite /log_softmax /softmax -map_comp.
apply: eq_map => x /=.
by rewrite /Rminus exp_plus exp_Ropp exp_logsumexp.
Qed.

Lemma log_softmax_idempotent (v : seq R) :
  (0 < size v)%N -> log_softmax (log_softmax v) = log_softmax v.
Proof.
move=> nonempty.
have zero : logsumexp (log_softmax v) = 0.
  by rewrite {1}/logsumexp exp_log_softmax // softmax_sum // ln_1.
rewrite {1}/log_softmax zero.
by rewrite -[RHS]map_id; apply: eq_map => x; rewrite Rminus_0_r.
Qed.

(** The log density of the mixture is the logarithm of the weighted sum
    of the component densities. *)
Lemma mixture_log_prob_sum (logits lps : seq R) :
  (0 < size logits)%N ->
  MixtureSameFamily.log_prob (Categorical.logits logits) lps
  = ln (Rsum [seq exp p.1 * p.2 | p <- zip lps (softmax logits)]).
Proof.
move=> nonempty.
rewrite /MixtureSameFamily.log_prob /Categorical.logits log_softmax_idempotent //.
rewrite /logsumexp -exp_log_softmax // zip_map_right -!map_comp.
by congr (ln (Rsum _)); apply: eq_map => p /=; rewrite exp_plus.
Qed.

Lemma mixture_density_sum (cs : seq (seq R * seq R)) (w : seq R) (y : seq R) :
  all (fun c => all Normal.valid c.2) cs ->
  Rsum [seq exp p.1 * p.2
       | p <- zip [seq Normal.independent_log_prob c.1 c.2 y | c <- cs] w]
  = Rsum [seq p.2 * normal_density_diag p.1.1 p.1.2 y | p <- zip cs w].
Proof.
elim: cs w => [|c cs IH] [|a w] //= /andP [valid rest].
by rewrite exp_independent_log_prob // IH // Rmult_comm.
Qed.

Lemma zip_valid (mus sigmas : seq (seq R)) :
  all (all Normal.valid) sigmas ->
  all (fun c : seq R * seq R => all Normal.valid c.2) (zip mus sigmas).
Proof.
by elim: mus sigmas => [|m mus IH] [|s sigmas] //= /andP [-> /IH ->].
Qed.

Lemma mean_nonempty (v : seq R) :
  (0 < size v)%N -> mean v = Some (Rsum v / INR (size v)).
Proof. by case: v. Qed.


(** X9. The loss of [GmmDiagonal.forward], for an instance with the
    shapes of its constructor and a batch of vectors of [num_feat]
    entries.  With positive scales, at least one component and a
    non-empty batch, it is the mean over the batch of the negative
    logarithm of the mixture density at the embedded point, the weights
    being [get_probs] and the components independent normal coordinates
    with the means [mus] and the standard deviations [sigmas_diag]. *)
Theorem diagonal_forward_mixture_nll (self : GmmDiagonal.t R) (x : seq (seq R)) :
  GmmDiagonal.well_shaped self ->
  batch_fits (GmmDiagonal.embed self) x ->
  all (all Normal.valid) (GmmDiagonal.sigmas_diag self) ->
  (0 < size (MixtureModel.logits (GmmDiagonal.base self)))%N ->
  (0 < size x)%N ->
  GmmDiagonal.forward self x
  = Ok (Some (- (Rsum [seq ln (mixture_density
                                 (get_probs (GmmDiagonal.base self))
                                 (GmmDiagonal.mus self)
                                 (GmmDiagonal.sigmas_diag self)
                                 (linear (Linear.weight (GmmDiagonal.embed self)) xb))
                      | xb <- x]
                 / INR (size x)))).
Proof.
move=> _ _ valid nonempty batch; rewrite /GmmDiagonal.forward valid.
have -> : Categorical.logits (MixtureModel.logits (GmmDiagonal.base self))
          = log_softmax (MixtureModel.logits (GmmDiagonal.base self)) by [].
have sz : size (log_softmax (MixtureModel.logits (GmmDiagonal.base self)))
          = size (MixtureModel.logits (GmmDiagonal.base self)).
  by rewrite /log_softmax size_map.
case E: (log_softmax _) sz => [|l0 ls] sz; first by rewrite -sz in nonempty.
rewrite -E mean_nonempty ?size_map // [omap _ _]/=.
congr (Ok (Some _)); rewrite -map_comp.
have -> : forall a b, -1 * (a / b) = - (a / b) by move=> a b; rewrite /Rdiv; Rring.
congr (- (Rsum _ / _)); apply: eq_map => xb /=.
rewrite -[log_softmax _]/(Categorical.logits _) mixture_log_prob_sum //.
by rewrite mixture_density_sum ?zip_valid.
Qed.

End MixtureLikelihood.

Section DiagonalForwardOutcomes.

Local Open Scope R_scope.

Lemma two_component_valid :
  all (all Normal.valid) (GmmDiagonal.sigmas_diag two_component_diagonal).
Proof. by rewrite /= /Normal.valid Rltb_pos //; Rlra. Qed.

Lemma diagonal_forward_mixture_nll_witness :
  [/\ GmmDiagonal.well_shaped two_component_diagonal
      /\ batch_fits (GmmDiagonal.embed two_component_diagonal) [:: [:: (0 : R)]],
      all (all Normal.valid) (GmmDiagonal.sigmas_diag two_component_diagonal),
      (0 < size (MixtureModel.logits (GmmDiagonal.base two_component_diagonal)))%N,
      (0 < size [:: [:: (0 : R)]])%N
    & GmmDiagonal.forward two_component_diagonal [:: [:: 0]]
      = Ok (Some (- (Rsum [seq ln (mixture_density
                                     (get_probs (GmmDiagonal.base two_component_diagonal))
                                     (GmmDiagonal.mus two_component_diagonal)
                                     (GmmDiagonal.sigmas_diag two_component_diagonal)
                                     (linear [:: [:: 1]] xb))
                          | xb <- [:: [:: 0]]] / INR 1)))].
Proof.
split=> //; first exact: two_component_valid.
have := @diagonal_forward_mixture_nll two_component_diagonal [:: [:: 0]]
          isT isT two_component_valid isT isT.
exact.
Defined.




End DiagonalForwardOutcomes.

Section ConstrainedForward.

Local Open Scope R_scope.





End ConstrainedForward.

Section FullForwardOutcomes.

Local Open Scope R_scope.

Lemma RlebP (x y : R) : reflect (x <= y) (Rleb x y).
Proof. by rewrite /Rleb; case: (Rle_dec x y) => h; constructor. Qed.

(** The batch of components is built unless one of the matrices, among
    those that have a mean, is refused as a covariance matrix, and the
    only exception is the [ValueError] of torch's argument check. *)
Lemma mvn_init_covariance (loc : seq (seq R)) (As : seq (seq (seq R))) :
  match MultivariateNormal.__init__ loc
          [seq MultivariateNormal.covariance_matrix A | A <- As] return Prop with
  | Ok cs =>
      all (fun A => MultivariateNormal.symmetric_check A && cholesky A)
          (take (size loc) As)
  | Raise e =>
      e = TorchValueError
      /\ has (fun A => ~~ (MultivariateNormal.symmetric_check A && cholesky A))
             (take (size loc) As)
  end.
Proof.
elim: loc As => [|mu loc IH] [|A As] //=.
case sym: (MultivariateNormal.symmetric_check A) => /=; last by [].
case chol: (cholesky A) => [L|] /=; last by [].
by have := IH As; case: (MultivariateNormal.__init__ _ _).
Qed.



Lemma not_symmetric (A : seq (seq R)) (i j : nat) :
  (i < size A)%N -> (j < size A)%N ->
  Rentry A i j = 0 -> / 1000000 < Rabs (Rentry A j i) ->
  MultivariateNormal.symmetric_check A = false.
Proof.
move=> lt_i lt_j zero big; rewrite /MultivariateNormal.symmetric_check.
apply/negbTE; rewrite negb_and; apply/orP; right.
apply/allPn; exists j; first by rewrite mem_iota.
apply/allPn; exists i; first by rewrite mem_iota.
apply/negP => /RlebP; rewrite /isclose zero Rminus_0_r Rabs_R0.
by Rlra.
Qed.

(** X13. [GmmFull.forward] refuses a proper lower-triangular scale
    factor.  On an instance with the shapes of its constructor, when
    some component has a zero entry above the diagonal and, mirrored
    below the diagonal, an entry larger than [1e-6] in absolute value,
    the call raises torch's [ValueError] on every batch of vectors of
    [num_feat] entries. *)
Theorem full_forward_refuses_triangular (self : GmmFull.t R) (x : seq (seq R))
    (c i j : nat) :
  GmmFull.well_shaped self ->
  batch_fits (GmmFull.embed self) x ->
  (c < size (GmmFull.mus self))%N ->
  (c < size (GmmFull.scale_tril self))%N ->
  (i < size (nth [::] (GmmFull.scale_tril self) c))%N ->
  (j < size (nth [::] (GmmFull.scale_tril self) c))%N ->
  Rentry (nth [::] (GmmFull.scale_tril self) c) i j = 0 ->
  / 1000000 < Rabs (Rentry (nth [::] (GmmFull.scale_tril self) c) j i) ->
  GmmFull.forward self x = Raise TorchValueError.
Proof.
move=> _ _ lt_mus lt_scale lt_i lt_j zero big; rewrite /GmmFull.forward.
have := mvn_init_covariance (GmmFull.mus self) (GmmFull.scale_tril self).
case: (MultivariateNormal.__init__ _ _) => [cs|e0] /=; last by case=> ->.
move=> /all_nthP -/(_ [::] c); rewrite size_take_min leq_min lt_mus lt_scale.
by rewrite nth_take // (not_symmetric lt_i lt_j zero big) => /(_ isT).
Qed.

Lemma full_forward_refuses_triangular_witness :
  GmmFull.forward
    (GmmFull.Build (MixtureModel.Build 1 2 1 None [:: 0])
       (Linear.Build 2 2 [:: [:: 1; 0]; [:: 0; 1]])
       [:: [:: 0; 0]]
       [:: [:: [:: 1; 0]; [:: 1; 1]]])
    [:: [:: 0; 0]]
  = Raise TorchValueError.
Proof.
apply: (@full_forward_refuses_triangular _ _ 0%N 0%N 1%N) => //=.
by rewrite /Rentry /= Rabs_R1; Rlra.
Defined.


End FullForwardOutcomes.

Section WarpOutcomes.

Local Open Scope R_scope.

Lemma warp_exponent_pos (n : nat) (t : R) :
  (2 <= n)%N -> 0 < t < 1 -> 0 < warp_exponent n t.
Proof.
move=> le_n [t_gt0 t_lt1]; have bounds := inv_len_bounds le_n.
have ln_t := @ln_neg t (conj t_gt0 t_lt1).
have ln_inv := @ln_neg (1 / INR n) bounds.
rewrite /warp_exponent.
have -> : ln t / ln (1 / INR n) = (- ln t) * / (- ln (1 / INR n)) by Rfield; Rlra.
by apply: Rmult_lt_0_compat; [|apply: Rinv_0_lt_compat]; Rlra.
Qed.

(** The exponent [warp_probs] finds for a vector of at least two entries
    and a positive target. *)
Lemma warp_probs_exponent (probs : seq R) (t : R) :
  (2 <= size probs)%N -> 0 < t ->
  warp_probs probs t
  = Ok (sequence [seq float_pow p (warp_exponent (size probs) t) | p <- probs]).
Proof.
move=> le_n t_gt0; have [inv_gt0 inv_lt1] := inv_len_bounds le_n.
have ln_inv : ln (1 / INR (size probs)) <> 0.
  by have := @ln_neg (1 / INR (size probs)) (conj inv_gt0 inv_lt1); Rlra.
rewrite /warp_probs numpy_log_pos //.
case: (size probs) le_n inv_gt0 inv_lt1 ln_inv => [|n] // _ inv_gt0 inv_lt1 ln_inv.
by rewrite /int_true_div /bind [INR 1]/= numpy_log_pos // float_div_nonzero.
Qed.

Lemma sequence_map_some (A B : Type) (f : A -> B) (s : seq A) :
  sequence [seq Some (f a) | a <- s] = Some [seq f a | a <- s].
Proof. by elim: s => [|a s IH] //=; rewrite IH. Qed.

Lemma float_pow_nonneg (p a : R) :
  0 <= p -> 0 < a -> float_pow p a = Some (nonneg_pow a p).
Proof.
move=> p_ge0 a_gt0; rewrite /float_pow /nonneg_pow.
case: (Rlt_dec 0 p) => // not_pos.
case: (Req_EM_T p 0) => [eq0|ne0]; first by case: Rlt_dec.
by case: p_ge0 => [pos|eq0]; [case: not_pos | case: ne0].
Qed.

Lemma Rpower_gt0 (p a : R) : 0 < Rpower p a.
Proof. exact: exp_pos. Qed.

Lemma Rpower_one (a : R) : Rpower 1 a = 1.
Proof. by rewrite /Rpower ln_1 Rmult_0_r exp_0. Qed.

Lemma nonneg_pow_ge0 (a p : R) : 0 <= nonneg_pow a p.
Proof.
rewrite /nonneg_pow; case: (Rlt_dec 0 p) => pos /=; last by Rlra.
by have := Rpower_gt0 p a; Rlra.
Qed.

Lemma nonneg_pow_eq0 (a p : R) : 0 <= p -> (nonneg_pow a p = 0 <-> p = 0).
Proof.
move=> p_ge0; rewrite /nonneg_pow; case: (Rlt_dec 0 p) => [p_gt0|] /=; last first.
  by move=> not_pos; split=> // _; Rlra.
by have := Rpower_gt0 p a; split; Rlra.
Qed.

Lemma nonneg_pow_le (a p q : R) :
  0 < a -> 0 <= p -> p <= q -> nonneg_pow a p <= nonneg_pow a q.
Proof.
move=> a_gt0 p_ge0 le_pq; rewrite {1}/nonneg_pow.
case: (Rlt_dec 0 p) => [p_gt0|not_pos]; last exact: nonneg_pow_ge0.
rewrite /nonneg_pow; case: (Rlt_dec 0 q) => [q_gt0|not_pos] /=; last by Rlra.
by apply: Rle_Rpower_l; [Rlra | split].
Qed.

Lemma nonneg_pow_le1 (a p : R) : 0 < a -> 0 <= p -> p <= 1 -> nonneg_pow a p <= 1.
Proof.
move=> a_gt0 p_ge0 p_le1.
have := nonneg_pow_le a_gt0 p_ge0 p_le1.
rewrite {2}/nonneg_pow; case: (Rlt_dec 0 1) => [pos|not_pos] /=; last by Rlra.
by rewrite Rpower_one.
Qed.

(** X14. The failures of [warp_probs].  On the empty vector it raises
    [ZeroDivisionError] whatever the target is, and it raises on no other
    vector; a real result has as many entries as the input. *)
Theorem warp_probs_outcomes (probs : seq R) (t : R) :
  [/\ probs = [::] -> warp_probs probs t = Raise ZeroDivisionError,
      forall e, warp_probs probs t = Raise e ->
        probs = [::] /\ e = ZeroDivisionError
    & forall v, warp_probs probs t = Ok (Some v) -> size v = size probs].
Proof.
split.
- by move=> ->.
- by case: probs => [|p probs] e //= [<-].
- move=> v; rewrite /warp_probs; case: (int_true_div _ _) => [inv_len|e] //=.
  case: (numpy_log t) => [a|] //; case: (numpy_log inv_len) => [b|] //.
  case: (float_div a b) => [alpha|] // [] /sequence_size ->.
  by rewrite size_map.
Qed.

(** X15. On a vector of at least two non-negative entries and a target
    strictly between 0 and 1, [warp_probs] has a real result of the same
    length; its entries are non-negative, an entry is zero exactly where
    the input is, entries that were at most 1 stay at most 1, and the
    order of the entries is kept. *)
Theorem warp_probs_keeps_order (probs : seq R) (t : R) :
  (2 <= size probs)%N -> 0 < t < 1 -> (forall p, p \in probs -> 0 <= p) ->
  exists v,
    [/\ warp_probs probs t = Ok (Some v),
        size v = size probs,
        forall i, (i < size probs)%N ->
          [/\ 0 <= nth 0 v i,
              nth 0 v i = 0 <-> nth 0 probs i = 0
            & nth 0 probs i <= 1 -> nth 0 v i <= 1]
      & forall i j, (i < size probs)%N -> (j < size probs)%N ->
          nth 0 probs i <= nth 0 probs j -> nth 0 v i <= nth 0 v j].
Proof.
move=> le_n bounds nonneg; have [t_gt0 _] := bounds.
have a_gt0 := warp_exponent_pos le_n bounds.
set a := warp_exponent (size probs) t in a_gt0.
exists [seq nonneg_pow a p | p <- probs].
have ge0 i : (i < size probs)%N -> 0 <= nth 0 probs i.
  by move=> lt_i; apply: nonneg; rewrite mem_nth.
split.
- rewrite warp_probs_exponent // -/a -sequence_map_some; congr (Ok (sequence _)).
  by apply/eq_in_map => p /nonneg p_ge0; rewrite float_pow_nonneg.
- by rewrite size_map.
- move=> i lt_i; rewrite (nth_map 0) //; split.
  + exact: nonneg_pow_ge0.
  + by apply: nonneg_pow_eq0; exact: ge0.
  + by apply: nonneg_pow_le1 => //; exact: ge0.
- move=> i j lt_i lt_j le_ij; rewrite !(nth_map 0) //.
  by apply: nonneg_pow_le => //; exact: ge0.
Qed.

Lemma warp_probs_keeps_order_witness :
  exists v, warp_probs [:: 1 / 4; 3 / 4] (3 / 4) = Ok (Some v) /\ size v = 2%N.
Proof.
have bounds : 0 < 3 / 4 < 1 by Rlra.
have nonneg : forall p, p \in [:: 1 / 4; 3 / 4] -> 0 <= p.
  by move=> p; rewrite !inE => /orP [] /eqP ->; Rlra.
have [v [warped sz _ _]] :=
  @warp_probs_keeps_order [:: 1 / 4; 3 / 4] (3 / 4) isT bounds nonneg.
by exists v.
Defined.

Lemma Int_part_0 : Int_part 0 = Z0.
Proof.
have := fp_R0; rewrite /frac_part Rminus_0_l => /(f_equal Ropp).
by rewrite Ropp_involutive Ropp_0 => /eq_IZR.
Qed.

Lemma float_pow_zero_exponent (p : R) : float_pow p 0 = Some 1.
Proof.
rewrite /float_pow; case: (Rlt_dec 0 p) => [pos|not_pos].
  by rewrite /Rpower Rmult_0_l exp_0.
case: (Req_EM_T p 0) => [eq0|ne0].
  case: (Rlt_dec 0 0) => [lt00|not_lt]; first by Rlra.
  by case: (Req_EM_T 0 0).
by rewrite Int_part_0; case: (Req_EM_T 0 (IZR 0)).
Qed.

(** X16. With the target 1 the exponent is zero, and [warp_probs] sends
    every vector of at least two entries, whatever the entries are, to
    the vector of ones. *)
Theorem warp_probs_target_one (probs : seq R) :
  (2 <= size probs)%N ->
  warp_probs probs 1 = Ok (Some (nseq (size probs) 1)).
Proof.
move=> le_n; have lt01 : 0 < 1 by Rlra.
rewrite warp_probs_exponent //.
have -> : warp_exponent (size probs) 1 = 0.
  by rewrite /warp_exponent ln_1 /Rdiv Rmult_0_l.
congr (Ok _); elim: probs {le_n} => [|p probs IH] //=.
by rewrite float_pow_zero_exponent IH.
Qed.

Lemma warp_probs_target_one_witness :
  warp_probs [:: 0; -1; 1 / 2] 1 = Ok (Some [:: 1; 1; 1]).
Proof. exact: (@warp_probs_target_one [:: 0; -1; 1 / 2] isT). Defined.

End WarpOutcomes.

Section RegistryRoundTrip.

(** X17. The tag of a family leads back to the family: looking up
    [family.value] returns [family], different families have different
    tags, and [FAMILY_NAMES] lists the five tags once each, in the order
    of the enumeration. *)
Theorem family_tag_round_trip :
  [/\ forall family, get_mixture_family_from_str (value family) = Ok family,
      forall f g, value f = value g -> f = g
    & FAMILY_NAMES = tags].
Proof.
split=> //.
- by move=> family; rewrite /get_mixture_family_from_str first_with_value_members.
- move=> f g eq_tag.
  have := first_with_value_members f; rewrite eq_tag first_with_value_members.
  by case.
Qed.

End RegistryRoundTrip.

Section LookupThenCreate.

Variable F : realFieldType.
Variable u : nat -> F.
Variable kaiming_bound : nat -> F.


End LookupThenCreate.


Section RandomScaleFactors.

Variable F : realFieldType.
Variable normal : nat -> nat -> nat -> seq (seq F) * nat.
Variable corrcoef : seq (seq F) -> seq (seq F).

Local Open Scope ring_scope.

Lemma random_cov_shape pos (d n : nat) :
  (forall obs, has_shape d d (corrcoef obs)) ->
  has_shape d d (make_random_cov_matrix normal corrcoef pos d n).1.
Proof.
move=> shaped; rewrite /make_random_cov_matrix.
case: eqP => [->|_] //.
by case: (normal pos d n) => obs pos' /=.
Qed.

(** X19. [make_random_scale_trils] returns [num_sigmas] matrices, each
    of them lower triangular; they are [num_dims x num_dims] when
    [numpy.corrcoef] returns such matrices; and for one dimension every
    matrix is [[1.0]] and nothing is drawn from the generator. *)
Theorem random_scale_trils_lower_triangular pos (num_sigmas num_dims : nat) :
  let trils := (make_random_scale_trils normal corrcoef pos num_sigmas num_dims).1 in
  [/\ size trils = num_sigmas,
      all (@lower_triangular F) trils,
      (forall obs, has_shape num_dims num_dims (corrcoef obs)) ->
        all (has_shape num_dims num_dims) trils
    & num_dims = 1%N ->
        make_random_scale_trils normal corrcoef pos num_sigmas num_dims
        = (nseq num_sigmas [:: [:: 1]], pos)].
Proof.
elim: num_sigmas pos => [|k IH] pos //=.
have := @random_cov_shape pos num_dims default_observations_per_variable.
have one : num_dims = 1%N ->
  make_random_cov_matrix normal corrcoef pos num_dims default_observations_per_variable
  = ([:: [:: 1]], pos).
  by move=> ->.
case: (make_random_cov_matrix _ _ _ _ _) one => cov pos1 one cov_shape.
have := IH pos1; case: (make_random_scale_trils _ _ _ _ _) => rest pos2 /=.
case=> sz lower shaped ones; split.
- by rewrite sz.
- by rewrite tril_lower_triangular.
- by move=> sh; rewrite tril_shape ?shaped //; exact: cov_shape.
- move=> d1; have [-> ->] := ones d1; have [-> ->] := one d1.
  by rewrite /tril /= /mkseq /=.
Qed.

End RandomScaleFactors.

Lemma random_scale_trils_lower_triangular_witness :
  make_random_scale_trils (fun _ _ _ => ([::], 0%N)) (fun=> [::]) 7 3 1
  = (nseq 3 [:: [:: (1 : rat)%R]], 7%N).
Proof.
have [_ _ _ ones] :=
  @random_scale_trils_lower_triangular rat (fun _ _ _ => ([::], 0%N)) (fun=> [::]) 7 3 1.
exact: ones.
Defined.

Section LogitShift.

Local Open Scope R_scope.

Lemma Rsum_map_mul (A : Type) (f : A -> R) (s : R) (v : seq A) :
  Rsum [seq s * f x | x <- v] = s * Rsum [seq f x | x <- v].
Proof.
elim: v => [|x v IH] /=; first by rewrite Rmult_0_r.
by rewrite IH Rmult_plus_distr_l.
Qed.

Lemma logsumexp_shift (c : R) (v : seq R) :
  (0 < size v)%N -> logsumexp [seq l + c | l <- v] = logsumexp v + c.
Proof.
move=> /Rsum_exp_gt0 sum_gt0; rewrite /logsumexp -map_comp.
have -> : [seq (exp \o Rplus^~ c) l | l <- v] = [seq exp c * exp l | l <- v].
  by apply: eq_map => l /=; rewrite exp_plus Rmult_comm.
have exp_gt0 := exp_pos c.
by rewrite Rsum_map_mul ln_mult // ln_exp; Rring.
Qed.

Lemma log_softmax_shift (c : R) (v : seq R) :
  log_softmax [seq l + c | l <- v] = log_softmax v.
Proof.
case: v => [|l0 v] //.
rewrite {1}/log_softmax logsumexp_shift // -map_comp.
by apply: eq_map => l /=; Rring.
Qed.

Lemma softmax_shift (c : R) (v : seq R) :
  softmax [seq l + c | l <- v] = softmax v.
Proof.
case: v => [|l0 v] //.
by rewrite -!exp_log_softmax // log_softmax_shift.
Qed.

(** X20. Adding one constant to every logit changes neither
    [get_probs] nor the outcome of [forward], for both classes and every
    batch: the loss depends on the logits through the mixing
    probabilities only. *)
Theorem logit_shift_invariance (c : R) (b : MixtureModel.t R) (e : Linear.t R)
    (mus : seq (seq R)) (scale_tril : seq (seq (seq R))) (sigmas_diag : seq (seq R))
    (x : seq (seq R)) :
  let shifted :=
    MixtureModel.Build (MixtureModel.num_components b) (MixtureModel.num_dims b)
      (MixtureModel.init_radius b) (MixtureModel.init_mus b)
      [seq l + c | l <- MixtureModel.logits b] in
  [/\ get_probs shifted = get_probs b,
      GmmFull.forward (GmmFull.Build shifted e mus scale_tril) x
      = GmmFull.forward (GmmFull.Build b e mus scale_tril) x
    & GmmDiagonal.forward (GmmDiagonal.Build shifted e mus sigmas_diag) x
      = GmmDiagonal.forward (GmmDiagonal.Build b e mus sigmas_diag) x].
Proof.
move=> shifted; split.
- by rewrite /get_probs /logits_to_probs /= softmax_shift.
- by rewrite /GmmFull.forward /= /Categorical.logits log_softmax_shift.
- by rewrite /GmmDiagonal.forward /= /Categorical.logits log_softmax_shift.
Qed.

End LogitShift.

Section FullOnDiagonalScale.

Local Open Scope R_scope.

(** *** Diagonal matrices over the reals *)

Lemma diag_rows (v : seq R) :
  diag v = mkseq (fun i => diag_row (size v) i (nth 0 v i)) (size v).
Proof.
rewrite /diag; apply/eq_in_map => i; rewrite mem_iota add0n => /andP [_ lt_i].
apply: (@eq_from_nth _ 0).
  by rewrite size_mkseq /diag_row size_cat /= !size_nseq -addSnnS subnKC.
move=> j; rewrite size_mkseq => lt_j; rewrite nth_mkseq // /diag_row nth_cat size_nseq.
case: (ltngtP j i) => [lt_ji|lt_ij|->].
- by rewrite nth_nseq if_same.
- by rewrite -(subnSK lt_ij) /= nth_nseq if_same.
- by rewrite subnn.
Qed.

Lemma Rdot_zeros_l (n : nat) (b : seq R) : Rdot (nseq n 0) b = 0.
Proof.
rewrite /Rdot; elim: n b => [|n IH] [|y b] //=.
by rewrite IH; Rring.
Qed.

Lemma Rdot_zeros_r (a r : seq R) : Rdot a (nseq (size a) 0 ++ r) = 0.
Proof.
rewrite /Rdot; elim: a => [|x a IH] /=; first by case: r.
by rewrite IH; Rring.
Qed.

Lemma rcons_nseq (n : nat) (a : R) : rcons (nseq n a) a = nseq n.+1 a.
Proof. by rewrite -cats1 -[[:: a]]/(nseq 1 a) -nseqD addn1. Qed.

Lemma solve_lower_zeros (L : seq (seq R)) (rest : seq R) (j : nat) :
  solve_lower L (nseq (size L) 0 ++ rest) (nseq j 0) = nseq (j + size L) 0.
Proof.
elim: L j => [|Li L IH] j /=; first by rewrite addn0; case: rest.
rewrite Rdot_zeros_l Rminus_diag /Rdiv Rmult_0_l rcons_nseq IH.
by rewrite addSnnS.
Qed.

Lemma nth_diag_row (n i : nat) (a : R) : nth 0 (diag_row n i a) i = a.
Proof. by rewrite /diag_row nth_cat size_nseq ltnn subnn. Qed.

Lemma cholesky_row_diag (n i : nat) (done : seq (seq R)) (a : R) :
  size done = i -> 0 < a ->
  cholesky_row n done (diag_row n i a) = Some (diag_row n i (sqrt a)).
Proof.
move=> sz a_gt0; rewrite /cholesky_row sz nth_diag_row.
have -> : solve_lower done (diag_row n i a) [::] = nseq i 0.
  by rewrite /diag_row -sz -[[::]]/(nseq 0 0) solve_lower_zeros.
rewrite Rdot_zeros_l Rminus_0_r.
by case: Rlt_dec.
Qed.

Lemma cholesky_diag (v : seq R) :
  all (Rltb 0) v -> cholesky (diag v) = Some (diag [seq sqrt a | a <- v]).
Proof.
move=> pos; rewrite /cholesky !diag_rows size_mkseq size_map.
set n := size v.
set rows := mkseq _ n; set roots := mkseq _ n.
have sz_rows : size rows = n by rewrite size_mkseq.
have sz_roots : size roots = n by rewrite size_mkseq.
suff step k i : (i + k = n)%N ->
    cholesky_rows n (take i roots) (drop i rows) = Some roots.
  by have := step n 0%N (add0n n); rewrite take0 drop0.
elim: k i => [|k IH] i.
  rewrite addn0 => ->.
  by rewrite drop_oversize ?sz_rows // take_oversize ?sz_roots.
rewrite addnS -addSn => eq_n.
have lt_i : (i < n)%N by rewrite -eq_n addSn ltnS leq_addr.
rewrite (drop_nth [::]) ?sz_rows // [cholesky_rows _ _ _]/=.
have a_gt0 : 0 < nth 0 v i by move/(all_nthP 0): pos => /(_ i lt_i) /RltbP.
have sz_done : size (take i roots) = i by rewrite size_take sz_roots lt_i.
rewrite {1}/rows nth_mkseq // (cholesky_row_diag n sz_done a_gt0).
have -> : diag_row n i (sqrt (nth 0 v i)) = nth [::] roots i.
  by rewrite /roots nth_mkseq // (nth_map 0).
by rewrite -take_nth ?sz_roots // IH.
Qed.

Lemma Rentry_diag (v : seq R) (i j : nat) :
  (i < size v)%N -> (j < size v)%N ->
  Rentry (diag v) i j = if i == j then nth 0 v i else 0.
Proof. by move=> lt_i lt_j; rewrite /Rentry /diag nth_mkseq // nth_mkseq. Qed.

Lemma symmetric_check_diag (v : seq R) :
  MultivariateNormal.symmetric_check (diag v) = true.
Proof.
have atol_ge0 : 0 <= / 1000000 by Rlra.
rewrite /MultivariateNormal.symmetric_check size_mkseq; apply/andP; split.
  by apply/allP => r /mapP [i _ ->]; rewrite size_mkseq.
apply/allP => i; rewrite mem_iota add0n => /andP [_ lt_i].
apply/allP => j; rewrite mem_iota add0n => /andP [_ lt_j].
rewrite !Rentry_diag // [j == i]eq_sym.
by case: eqP => [->|_]; rewrite isclose_refl.
Qed.

Lemma solve_lower_diag (sv diff : seq R) :
  size diff = size sv ->
  solve_lower (diag sv) diff [::] = [seq p.1 / p.2 | p <- zip diff sv].
Proof.
move=> sz_diff; rewrite diag_rows.
set n := size sv; set rows := mkseq _ n; set z := map _ _.
have sz_rows : size rows = n by rewrite size_mkseq.
have sz_z : size z = n by rewrite size_map size_zip sz_diff minnn.
suff step k i : (i + k = n)%N ->
    solve_lower (drop i rows) (drop i diff) (take i z) = z.
  by have := step n 0%N (add0n n); rewrite take0 !drop0.
elim: k i => [|k IH] i.
  rewrite addn0 => ->.
  by rewrite drop_oversize ?sz_rows // take_oversize ?sz_z.
rewrite addnS -addSn => eq_n.
have lt_i : (i < n)%N by rewrite -eq_n addSn ltnS leq_addr.
have sz_acc : size (take i z) = i by rewrite size_take sz_z lt_i.
rewrite (drop_nth [::]) ?sz_rows // (drop_nth 0) ?sz_diff // [solve_lower _ _ _]/=.
rewrite {1 2}/rows nth_mkseq // sz_acc nth_diag_row.
have -> : Rdot (take i z) (diag_row n i (nth 0 sv i)) = 0.
  by rewrite /diag_row -{2}sz_acc Rdot_zeros_r.
have -> : (nth 0 diff i - 0) / nth 0 sv i = nth 0 z i.
  by rewrite Rminus_0_r /z (nth_map (0, 0)) ?nth_zip // size_zip sz_diff minnn.
by rewrite -take_nth ?sz_z // IH.
Qed.

Lemma half_log_det_diag (sv : seq R) :
  [seq ln (Rentry (diag sv) i i) | i <- iota 0 (size (diag sv))]
  = [seq ln s | s <- sv].
Proof.
rewrite size_mkseq; apply: (@eq_from_nth _ 0); first by rewrite !size_map size_iota.
move=> i; rewrite size_map size_iota => lt_i.
by rewrite (nth_map 0%N) ?size_iota // nth_iota // add0n Rentry_diag // eqxx (nth_map 0).
Qed.

Lemma Rdot_cons (a b : R) (u v : seq R) : Rdot (a :: u) (b :: v) = a * b + Rdot u v.
Proof. by []. Qed.

(** The log density of a multivariate normal whose Cholesky factor is
    diagonal is the one of independent normal coordinates. *)
Lemma mvn_log_prob_diag (mu sv value : seq R) :
  size mu = size sv -> size value = size sv -> all Normal.valid sv ->
  MultivariateNormal.log_prob (MultivariateNormal.Build mu (diag sv)) value
  = Normal.independent_log_prob mu sv value.
Proof.
move=> sz_mu sz_value pos.
rewrite /MultivariateNormal.log_prob [MultivariateNormal.loc _]/=.
rewrite [MultivariateNormal.unbroadcasted_scale_tril _]/=.
have sz_diff : size [seq p.1 - p.2 | p <- zip value mu] = size sv.
  by rewrite size_map size_zip sz_value sz_mu minnn.
rewrite half_log_det_diag (solve_lower_diag sz_diff) {sz_diff}.
rewrite /Normal.independent_log_prob.
elim: mu sv value sz_mu sz_value pos => [|m mu IH] [|s sv] [|x value] //=.
  by move=> _ _ _; rewrite /Rdot /=; Rring.
move=> [sz_mu] [sz_value] /andP [/RltbP s_gt0 pos].
rewrite -(IH sv value) // Rdot_cons /Normal.log_prob ln_sqrt_2PI.
have -> : match size mu with 0%N => 1 | _.+1 => INR (size mu) + 1 end
          = INR (size mu) + 1.
  by case: (size mu) => [|k] //=; Rring.
by Rfield; Rlra.
Qed.

Lemma sqrt_valid (row : seq R) :
  all Normal.valid row -> all Normal.valid [seq sqrt s | s <- row].
Proof.
move=> /allP pos; apply/allP => r /mapP [s /pos /RltbP s_gt0 ->].
by apply/RltbP; exact: sqrt_lt_R0.
Qed.

Lemma mvn_init_diag (mus sigmas : seq (seq R)) :
  all (all Normal.valid) sigmas ->
  MultivariateNormal.__init__ mus
    [seq MultivariateNormal.covariance_matrix A | A <- diag_embed sigmas]
  = Ok [seq MultivariateNormal.Build p.1 (diag [seq sqrt s | s <- p.2])
       | p <- zip mus sigmas].
Proof.
elim: mus sigmas => [|mu mus IH] [|row sigmas] //= /andP [pos rest].
by rewrite symmetric_check_diag cholesky_diag // IH.
Qed.

Lemma component_log_probs_diag (d : nat) (mus sigmas : seq (seq R)) (value : seq R) :
  all (fun mu => size mu == d) mus -> all (fun row => size row == d) sigmas ->
  size value = d -> all (all Normal.valid) sigmas ->
  [seq MultivariateNormal.log_prob c value
  | c <- [seq MultivariateNormal.Build p.1 (diag [seq sqrt s | s <- p.2])
         | p <- zip mus sigmas]]
  = [seq Normal.independent_log_prob p.1 p.2 value
    | p <- zip mus [seq [seq sqrt s | s <- row] | row <- sigmas]].
Proof.
move=> sz_mus sz_sigmas sz_value.
elim: mus sigmas sz_mus sz_sigmas => [|mu mus IH] [|row sigmas] //=.
move=> /andP [/eqP sz_mu sz_mus] /andP [/eqP sz_row sz_sigmas] /andP [pos rest].
rewrite IH // mvn_log_prob_diag ?size_map ?sz_mu ?sz_row //.
exact: sqrt_valid.
Qed.

(** X21. A [GmmFull] whose [scale_tril] is the covariance read-out of a
    [GmmDiagonal] with the shapes of its constructor and positive scales
    (the diagonal matrices of the scales) has, on every batch of vectors
    of [num_feat] entries, the loss of the [GmmDiagonal] with the square
    roots of these scales: [forward] takes the entries of [scale_tril] as
    variances. *)
Theorem full_forward_on_diagonal_read_out (self : GmmDiagonal.t R) (x : seq (seq R)) :
  GmmDiagonal.well_shaped self ->
  batch_fits (GmmDiagonal.embed self) x ->
  all (all Normal.valid) (GmmDiagonal.sigmas_diag self) ->
  GmmFull.forward
    (GmmFull.Build (GmmDiagonal.base self) (GmmDiagonal.embed self)
       (GmmDiagonal.mus self) (GmmDiagonal.get_covariance_matrix self)) x
  = GmmDiagonal.forward
      (GmmDiagonal.Build (GmmDiagonal.base self) (GmmDiagonal.embed self)
         (GmmDiagonal.mus self)
         [seq [seq sqrt s | s <- row] | row <- GmmDiagonal.sigmas_diag self]) x.
Proof.
case/and4P=> _ /andP [_ sz_mus] /andP [/eqP sz_W _] /andP [_ sz_sigmas] _ pos.
rewrite /GmmFull.forward /GmmDiagonal.forward /GmmDiagonal.get_covariance_matrix /=.
rewrite mvn_init_diag // [bind _ _]/=.
have -> : all (all Normal.valid)
            [seq [seq sqrt s | s <- row] | row <- GmmDiagonal.sigmas_diag self].
  by apply/allP => r /mapP [row /(allP pos) valid ->]; exact: sqrt_valid.
case: (Categorical.logits _) => [|l0 ls] //.
congr (Ok (omap _ (mean _))); rewrite -!map_comp; apply: eq_map => xb /=.
congr (MixtureSameFamily.log_prob _ _).
apply: (component_log_probs_diag sz_mus sz_sigmas) => //.
by rewrite /linear size_map.
Qed.

Lemma variance_four_checks :
  GmmDiagonal.well_shaped variance_four_diagonal
  /\ all (all Normal.valid) (GmmDiagonal.sigmas_diag variance_four_diagonal).
Proof. by split=> //; rewrite /= /Normal.valid Rltb_pos //; Rlra. Qed.

Lemma full_forward_on_diagonal_read_out_witness :
  GmmFull.forward
    (GmmFull.Build (GmmDiagonal.base variance_four_diagonal)
       (GmmDiagonal.embed variance_four_diagonal)
       (GmmDiagonal.mus variance_four_diagonal)
       (GmmDiagonal.get_covariance_matrix variance_four_diagonal)) [:: [:: 1]]
  = GmmDiagonal.forward
      (GmmDiagonal.Build (GmmDiagonal.base variance_four_diagonal)
         (GmmDiagonal.embed variance_four_diagonal)
         (GmmDiagonal.mus variance_four_diagonal)
         [seq [seq sqrt s | s <- row]
         | row <- GmmDiagonal.sigmas_diag variance_four_diagonal]) [:: [:: 1]].
Proof.
have [shaped valid] := variance_four_checks.
exact: (@full_forward_on_diagonal_read_out variance_four_diagonal [:: [:: 1]]
          shaped isT valid).
Defined.

End FullOnDiagonalScale.
